(** * Tasky: the command-line to-do list manager of [src/index.js]

    A shallow embedding of the task store and of the six menu commands
    ([addTask], [listTasks], [updateTask], [markComplete], [removeTask],
    [clearCompleted]) together with [initializeDB], followed by the
    properties of the store that the specification states.

    Conventions of the embedding:
    - a JavaScript string is a [string]; a JavaScript number is a rational
      [Q] (only comparisons and one subtraction are performed on numbers);
    - [db] (the [Low] instance) is threaded explicitly: [db.data] is the
      in-memory document, and the content of [db.json] is kept next to it so
      that memory and disk can be compared;
    - exceptions are explicit: an effectful step returns either a value or
      a thrown [Error] together with the state reached when it was thrown;
    - everything that comes from outside the program is an argument: the
      answers returned by the [inquirer] prompts, the clock ([Date.now()],
      [dayjs().format()]), whether a [db.write()] succeeds, the date
      grammar of [dayjs] and the engine's [Array.prototype.sort]. *)

From stdpp Require Import base strings list numbers pretty sorting.
From Stdlib Require Import QArith Lqa.

Local Open Scope Z_scope.

(** ** Data model *)

(** A task object, with the seven fields of [taskSchema]. *)
Record Task := mkTask {
  id : string;
  title : string;
  description : string;
  dueDate : string;
  createdAt : string;
  priority : Q;
  completed : bool
}.

(** [db.data]: a JSON object whose [tasks] property may be missing
    ([None] stands for [undefined]). *)
Record Data := mkData { tasks : option (list Task) }.

(** The [Low] instance: [data] is [db.data] ([None] stands for [null]),
    [file] is the document stored in [db.json] ([None]: there is no file). *)
Record Low := mkLow { data : option Data; file : option Data }.

(** One issue of a [ZodError], in the order of the schema's fields. *)
Inductive Issue :=
| TitleEmpty          (* "Title cannot be empty" *)
| InvalidDate         (* "Invalid date format" *)
| PriorityTooSmall    (* number below min(1) *)
| PriorityTooBig.     (* number above max(3) *)

(** What can be thrown. *)
Inductive Error :=
| TypeError                      (* property access on null or undefined *)
| ZodError (issues : list Issue) (* taskSchema.parse *)
| WriteError.                    (* db.write() rejected *)

(** Completion of a step: a value or a thrown error. *)
Inductive Completion (A : Type) :=
| Normal (a : A)
| Throw (e : Error).
Arguments Normal {A} a.
Arguments Throw {A} e.

(** An effectful step on the store. The state is returned in both cases:
    what was mutated before a throw stays mutated. *)
Definition Eff (A : Type) : Type := Low → Completion A * Low.

#[export] Instance Eff_ret : MRet Eff := λ A a db, (Normal a, db).
#[export] Instance Eff_bind : MBind Eff := λ A B k m db,
  match m db with
  | (Normal a, db') => k a db'
  | (Throw e, db') => (Throw e, db')
  end.

Definition throw {A} (e : Error) : Eff A := λ db, (Throw e, db).

(** What the user sees when a command returns. *)
Inductive Outcome :=
| Notice (msg : string)                (* console.log(chalk.yellow(msg)); return *)
| Succeeded (msg : string)             (* spinner.succeed(msg) *)
| Failed (prefix : string) (e : Error) (* spinner.fail(prefix + error.message) *)
| Listed (rows : list Task)            (* the table printed by listTasks *)
| Uncaught (e : Error).                (* the exception leaves the command *)

Definition Command : Type := Low → Outcome * Low.

(** [try { body; spinner.succeed(..) } catch (error) { spinner.fail(..) }] *)
Definition try_catch (body : Eff string) (prefix : string) : Command := λ db,
  match body db with
  | (Normal msg, db') => (Succeeded msg, db')
  | (Throw e, db') => (Failed prefix e, db')
  end.

Definition notice (msg : string) : Command := λ db, (Notice msg, db).
Definition uncaught (e : Error) : Command := λ db, (Uncaught e, db).

(** ** The store: lowdb's [Low] over a [JSONFile] adapter *)

(** [db.data.tasks], used as an array: a [TypeError] when [db.data] is
    [null] or has no [tasks]. *)
Definition get_tasks : Eff (list Task) := λ db,
  match data db with
  | Some (mkData (Some ts)) => (Normal ts, db)
  | _ => (Throw TypeError, db)
  end.

(** [db.data.tasks = ts] *)
Definition assign_tasks (ts : list Task) : Eff unit := λ db,
  match data db with
  | Some _ => (Normal (), mkLow (Some (mkData (Some ts))) (file db))
  | None => (Throw TypeError, db)
  end.

(** [await db.read()]: [db.data] becomes the stored document, [null] when
    there is no file. (The file is kept as the document it parses to; a
    file that is not JSON makes [read] throw and [main] exit.) *)
Definition read : Eff unit := λ db, (Normal (), mkLow (file db) (file db)).

(** [await db.write()]: the whole document replaces the file; nothing is
    written while [db.data] is [null]. [ok] tells whether the file system
    accepts the write; when it does not, the file keeps its content and the
    promise rejects. *)
Definition write (ok : bool) : Eff unit := λ db,
  match data db with
  | None => (Normal (), db)
  | Some d => if ok then (Normal (), mkLow (Some d) (Some d))
              else (Throw WriteError, db)
  end.

(** The task collection in memory and on disk. *)
Definition mem_tasks (db : Low) : option (list Task) := d ← data db; tasks d.
Definition disk_tasks (db : Low) : option (list Task) := d ← file db; tasks d.

(** A store whose memory holds [ts] while the file holds [f]; and a store
    that holds [ts] both in memory and on disk (as after a successful
    [db.write()]). *)
Definition in_memory (ts : list Task) (f : option Data) : Low :=
  mkLow (Some (mkData (Some ts))) f.
Definition store_of (ts : list Task) : Low :=
  in_memory ts (Some (mkData (Some ts))).

(** [with_tasks k]: the command reads [db.data.tasks] outside of any [try]. *)
Definition with_tasks (k : list Task → Command) : Command := λ db,
  match get_tasks db with
  | (Normal ts, _) => k ts db
  | (Throw e, _) => (Uncaught e, db)
  end.

(** Array helpers: [find], [findIndex] ([None] is [-1]) by task id. *)
Definition find_by_id (taskId : string) (ts : list Task) : option Task :=
  snd <$> list_find (λ t, id t = taskId) ts.
Definition findIndex_by_id (taskId : string) (ts : list Task) : option nat :=
  fst <$> list_find (λ t, id t = taskId) ts.

(** [ts[taskIndex] = t]. At index [-1] the assignment creates a property
    that is not an element: the sequence of elements is unchanged. *)
Definition set_at (taskIndex : option nat) (t : Task) (ts : list Task) : list Task :=
  match taskIndex with
  | Some i => <[i:=t]> ts
  | None => ts
  end.

(** [a || b] on strings: the empty string is falsy. *)
Definition or_else (a b : string) : string := if decide (a = "") then b else a.

(** [String.prototype.trim] on code units below 256. *)
Definition isWhiteSpace (c : Ascii.ascii) : bool :=
  let n := Ascii.nat_of_ascii c in
  ((9 <=? n) && (n <=? 13) || (n =? 32) || (n =? 160))%nat.

Fixpoint trimStart (s : string) : string :=
  match s with
  | String c s' => if isWhiteSpace c then trimStart s' else s
  | EmptyString => EmptyString
  end.

Definition trim (s : string) : string :=
  String.rev (trimStart (String.rev (trimStart s))).

(** [q < 0] on numbers. *)
Definition negative (q : Q) : bool := bool_decide (Qnum q < 0).

(** The sort keys offered by [listTasks]. *)
Inductive SortKey := by_dueDate | by_priority | by_completed | by_createdAt.

(** The keys that sort by a date. *)
Definition date_key (sortBy : SortKey) : Prop :=
  sortBy = by_dueDate ∨ sortBy = by_createdAt.

(** The answers of the prompts. *)
Record Answers := mkAnswers {
  a_title : string;
  a_description : string;
  a_dueDate : string;
  a_priority : Q
}.

Section Tasky.

(** [dayjs(s).valueOf()]: the instant a string denotes, in milliseconds;
    [None] is an invalid date (NaN). The date grammar is dayjs's. *)
Variable dayjs : string → option Z.

(** The engine's [Array.prototype.sort], given the compare function. *)
Variable Array_sort : (Task → Task → Q) → list Task → list Task.

Definition isValid (s : string) : bool := bool_decide (is_Some (dayjs s)).

(** [dayjs(a).isBefore(dayjs(b))]: a comparison of the two instants, false
    as soon as one of them is invalid. *)
Definition isBefore (a b : string) : bool :=
  match dayjs a, dayjs b with
  | Some x, Some y => bool_decide (x < y)
  | _, _ => false
  end.

(** ** Validation: [taskSchema] *)

Definition title_issues (t : Task) : list Issue :=
  if (String.length (title t) <? 1)%nat then [TitleEmpty] else [].
Definition dueDate_issues (t : Task) : list Issue :=
  if isValid (dueDate t) then [] else [InvalidDate].
Definition priority_issues (t : Task) : list Issue :=
  (if Qle_bool 1 (priority t) then [] else [PriorityTooSmall]) ++
  (if Qle_bool (priority t) 3 then [] else [PriorityTooBig]).

Definition taskSchema_issues (t : Task) : list Issue :=
  title_issues t ++ dueDate_issues t ++ priority_issues t.

(** [taskSchema.parse(t)]: throws a [ZodError] listing every issue. *)
Definition taskSchema_parse (t : Task) : Eff unit :=
  match taskSchema_issues t with
  | [] => mret ()
  | issues => throw (ZodError issues)
  end.

(** The three choices of the priority prompts. *)
Definition priority_choice (p : Q) : bool :=
  Qeq_bool p 1 || Qeq_bool p 2 || Qeq_bool p 3.

(** What the prompts of [addTask] accept before returning their answers
    (the [validate] callbacks and the three priority choices). *)
Definition add_prompt_accepts (answers : Answers) : bool :=
  bool_decide (trim (a_title answers) ≠ "") &&
  isValid (a_dueDate answers) &&
  priority_choice (a_priority answers).

(** The prompts of [updateTask]: the title has no [validate]. *)
Definition update_prompt_accepts (answers : Answers) : bool :=
  isValid (a_dueDate answers) &&
  priority_choice (a_priority answers).

(** ** The commands *)

Definition initializeDB (ok : bool) : Eff unit :=
  read ;;
  (λ db, (Normal (),
          match data db with                    (* db.data ||= { tasks: [] } *)
          | Some _ => db
          | None => mkLow (Some (mkData (Some []))) (file db)
          end)) ;;
  write ok.

(** [addTask]; [now] is [Date.now()], [stamp] is [dayjs().format()]. *)
Definition newTask (now : Z) (stamp : string) (answers : Answers) : Task := {|
  id := pretty now;
  title := a_title answers;
  description := or_else (a_description answers) "";
  dueDate := a_dueDate answers;
  createdAt := stamp;
  priority := a_priority answers;
  completed := false |}.

Definition addTask (now : Z) (stamp : string) (answers : Answers) (ok : bool) : Command :=
  try_catch
    (taskSchema_parse (newTask now stamp answers) ;;
     ts ← get_tasks ;
     assign_tasks (ts ++ [newTask now stamp answers]) ;;   (* db.data.tasks.push(newTask) *)
     write ok ;;
     mret "Task added successfully!")
    "Failed to add task: ".

(** [a[sortBy]] in the last branch of the compare function, reached with
    the two date keys. *)
Definition date_of (sortBy : SortKey) (t : Task) : string :=
  match sortBy with
  | by_createdAt => createdAt t
  | _ => dueDate t
  end.

Definition compareFn (sortBy : SortKey) (a b : Task) : Q :=
  match sortBy with
  | by_priority => priority a - priority b
  | by_completed =>
      if bool_decide (completed a = completed b) then 0
      else if completed a then 1 else -1
  | by_dueDate | by_createdAt =>
      if isBefore (date_of sortBy a) (date_of sortBy b) then -1 else 1
  end.

(** [listTasks]: the rows of the table, in the order printed. *)
Definition tasksToDisplay (sortBy : SortKey) (showCompleted : bool) (ts : list Task) : list Task :=
  let shown := if showCompleted then ts else filter (λ t, completed t = false) ts in
  Array_sort (compareFn sortBy) shown.

Definition listTasks (sortBy : SortKey) (showCompleted : bool) : Command :=
  with_tasks (λ ts,
    if (length ts =? 0)%nat then notice "No tasks found."
    else λ db, (Listed (tasksToDisplay sortBy showCompleted ts), db)).

(** [{ ...task, title, description, dueDate, priority }] *)
Definition merge_answers (task : Task) (answers : Answers) : Task := {|
  id := id task;
  title := a_title answers;
  description := a_description answers;
  dueDate := a_dueDate answers;
  createdAt := createdAt task;
  priority := a_priority answers;
  completed := completed task |}.

Definition updateTask (taskId : string) (answers : Answers) (ok : bool) : Command :=
  with_tasks (λ ts,
    if (length ts =? 0)%nat then notice "No tasks available to update."
    else
      match find_by_id taskId ts with
      | None => uncaught TypeError         (* task.title, building the prompt *)
      | Some task =>
          try_catch
            (let updatedTask := merge_answers task answers in
             taskSchema_parse updatedTask ;;
             ts' ← get_tasks ;
             let taskIndex := findIndex_by_id taskId ts' in
             assign_tasks (set_at taskIndex updatedTask ts') ;;
             write ok ;;
             mret "Task updated successfully!")
            "Failed to update task: "
      end).

Definition set_completed (t : Task) : Task := {|
  id := id t; title := title t; description := description t;
  dueDate := dueDate t; createdAt := createdAt t; priority := priority t;
  completed := true |}.

Definition markComplete (taskId : string) (ok : bool) : Command :=
  with_tasks (λ ts,
    let incompleteTasks := filter (λ t, completed t = false) ts in
    if (length incompleteTasks =? 0)%nat then notice "No incomplete tasks available."
    else
      try_catch
        (ts' ← get_tasks ;
         match list_find (λ t, id t = taskId) ts' with
         | Some (taskIndex, t) =>           (* db.data.tasks[taskIndex].completed = true *)
             assign_tasks (<[taskIndex:=set_completed t]> ts')
         | None => throw TypeError          (* db.data.tasks[-1] is undefined *)
         end ;;
         write ok ;;
         mret "Task marked as completed!")
        "Failed to update task: ").

Definition removeTask (taskId : string) (confirm : bool) (ok : bool) : Command :=
  with_tasks (λ ts,
    if (length ts =? 0)%nat then notice "No tasks available to remove."
    else if negb confirm then notice "Task removal cancelled."
    else
      try_catch
        (ts' ← get_tasks ;
         assign_tasks (filter (λ t, id t ≠ taskId) ts') ;;
         write ok ;;
         mret "Task removed successfully!")
        "Failed to remove task: ").

Definition clearCompleted (confirm : bool) (ok : bool) : Command :=
  with_tasks (λ ts,
    let completedTasks := filter (λ t, completed t = true) ts in
    if (length completedTasks =? 0)%nat then notice "No completed tasks to clear."
    else if negb confirm then notice "Clear operation cancelled."
    else
      try_catch
        (ts' ← get_tasks ;
         assign_tasks (filter (λ t, completed t = false) ts') ;;
         write ok ;;
         mret ("Cleared " +:+ pretty (length completedTasks) +:+ " task(s)!"))
        "Failed to clear tasks: ").

(** ** The menu loop *)

(** One turn of [mainMenu]: the action chosen and the answers given. *)
Inductive Action :=
| act_add (now : Z) (stamp : string) (answers : Answers)
| act_list (sortBy : SortKey) (showCompleted : bool)
| act_update (taskId : string) (answers : Answers)
| act_complete (taskId : string)
| act_remove (taskId : string) (confirm : bool)
| act_clear (confirm : bool).

(** The [switch] of [mainMenu]; [ok] is the fate of the turn's [db.write()]. *)
Definition dispatch (action : Action) (ok : bool) : Command :=
  match action with
  | act_add now stamp answers => addTask now stamp answers ok
  | act_list sortBy showCompleted => listTasks sortBy showCompleted
  | act_update taskId answers => updateTask taskId answers ok
  | act_complete taskId => markComplete taskId ok
  | act_remove taskId confirm => removeTask taskId confirm ok
  | act_clear confirm => clearCompleted confirm ok
  end.

(** [mainMenu] calls itself after every turn; an exception that leaves a
    command ends the session ([main] prints it and exits). The turns are
    given as a script; the outcomes are collected in order. *)
Fixpoint mainMenu (script : list (Action * bool)) (db : Low) : list Outcome * Low :=
  match script with
  | [] => ([], db)
  | (action, ok) :: rest =>
      match dispatch action ok db with
      | (Uncaught e, db') => ([Uncaught e], db')
      | (outcome, db') =>
          let '(outcomes, db'') := mainMenu rest db' in
          (outcome :: outcomes, db'')
      end
  end.

(** A turn that adds a task: the clock reading, the stamp, the answers and
    the fate of the write. *)
Definition clock (e : Z * string * Answers * bool) : Z := e.1.1.1.
Definition add_turn (e : Z * string * Answers * bool) : Action * bool :=
  (act_add e.1.1.1 e.1.1.2 e.1.2, e.2).

(** The array a command leaves in [db.data.tasks] once it has reached its
    [db.write()]: the statement executed just before the write. *)
Definition mutated (action : Action) (ts : list Task) : list Task :=
  match action with
  | act_add now stamp answers => ts ++ [newTask now stamp answers]
  | act_list _ _ => ts
  | act_update taskId answers =>
      match list_find (λ t, id t = taskId) ts with
      | Some (i, task) => <[i:=merge_answers task answers]> ts
      | None => ts
      end
  | act_complete taskId =>
      match list_find (λ t, id t = taskId) ts with
      | Some (i, t) => <[i:=set_completed t]> ts
      | None => ts
      end
  | act_remove taskId _ => filter (λ t, id t ≠ taskId) ts
  | act_clear _ => filter (λ t, completed t = false) ts
  end.

End Tasky.

(** ** What the engine's sort guarantees

    The engine (Node's) sorts with a stable merge sort that takes its
    decisions from the test [comparefn(a, b) < 0] only. [precedes] is that
    test; when it is a strict weak order on the elements to sort, the
    result is the stable sort for it. *)

Section SortContract.

Context {A : Type} (cmp : A → A → Q).

Definition precedes (a b : A) : Prop := negative (cmp a b) = true.

(** Neither precedes the other. *)
Definition tied (a b : A) : Prop := ¬ precedes a b ∧ ¬ precedes b a.

Record strict_weak_on (l : list A) : Prop := {
  swo_irrefl a : a ∈ l → ¬ precedes a a;
  swo_trans a b c :
    a ∈ l → b ∈ l → c ∈ l → precedes a b → precedes b c → precedes a c;
  swo_tied_trans a b c :
    a ∈ l → b ∈ l → c ∈ l → tied a b → tied b c → tied a c
}.

#[export] Instance precedes_dec a b : Decision (precedes a b).
Proof. unfold precedes. apply _. Defined.
#[export] Instance tied_dec a b : Decision (tied a b).
Proof. unfold tied. apply _. Defined.

(** [l'] is [l] sorted: the same elements, no element preceding an earlier
    one, and the elements tied with one another in their order of [l]. *)
Record stable_sort_of (l l' : list A) : Prop := {
  sort_perm : l' ≡ₚ l;
  sort_order : StronglySorted (λ a b, ¬ precedes b a) l';
  sort_stable x : x ∈ l → filter (tied x) l' = filter (tied x) l
}.

End SortContract.

(** ** Instances used to run the model on examples *)

(** A date oracle that knows a few ISO strings (UTC instants). *)
Definition sample_calendar : list (string * Z) :=
  [ ("2024-01-01", 1704067200000);
    ("2024-1-1", 1704067200000);
    ("2024-01-02", 1704153600000);
    ("2024-03-15", 1710460800000);
    ("2024-01-01T09:00:00+00:00", 1704099600000);
    ("2024-01-01T09:30:00+00:00", 1704101400000) ].

Definition sample_dayjs (s : string) : option Z :=
  (λ p, snd (snd p)) <$> list_find (λ p, fst p = s) sample_calendar.

(** A sort that, like the engine's, decides by the test
    [comparefn(a, b) < 0] alone: insertion from the right, an element
    moving left past the elements it strictly precedes. *)
Fixpoint insert_by {A} (cmp : A → A → Q) (x : A) (l : list A) : list A :=
  match l with
  | [] => [x]
  | y :: l' => if negative (cmp y x) then y :: insert_by cmp x l' else x :: y :: l'
  end.

Definition insertion_sort {A} (cmp : A → A → Q) (l : list A) : list A :=
  foldr (insert_by cmp) [] l.

(** Sample tasks. *)
Definition milk : Task :=
  mkTask "1700000000000" "Buy milk" "" "2024-01-02" "2024-01-01T09:00:00+00:00" 2 false.
Definition taxes : Task :=
  mkTask "1700000000001" "File taxes" "before April" "2024-03-15" "2024-01-01T09:30:00+00:00" 1 false.
Definition laundry : Task :=
  mkTask "1700000000002" "Laundry" "" "2024-01-02" "2024-01-01T09:30:00+00:00" 3 true.
Definition ticked (t : Task) : Task := set_completed t.


(** ** The prompts' choices *)

Section Session.

Variable dayjs : string → option Z.
Variable Array_sort : (Task → Task → Q) → list Task → list Task.

(** What the prompts of a command can answer on the collection [ts]. A
    list prompt returns the value of one of its choices: [updateTask] and
    [removeTask] offer the id of every task, [markComplete] the id of every
    incomplete task; a command that returns before its prompt asks nothing.
    The input prompts return what their [validate] callbacks accept. *)
Definition answered_by_prompts (action : Action) (ts : list Task) : Prop :=
  match action with
  | act_add _ _ answers => add_prompt_accepts dayjs answers = true
  | act_list _ _ => True
  | act_update taskId answers =>
      ts = [] ∨ (taskId ∈ id <$> ts ∧ update_prompt_accepts dayjs answers = true)
  | act_complete taskId =>
      let incompleteTasks := filter (λ t, completed t = false) ts in
      incompleteTasks = [] ∨ taskId ∈ id <$> incompleteTasks
  | act_remove taskId _ => ts = [] ∨ taskId ∈ id <$> ts
  | act_clear _ => True
  end.

(** A script whose every turn is answered by the prompts, on the
    collection the turn finds. *)
Fixpoint script_answered (script : list (Action * bool)) (db : Low) : Prop :=
  match script with
  | [] => True
  | (action, ok) :: rest =>
      (∀ ts, mem_tasks db = Some ts → answered_by_prompts action ts)
      ∧ script_answered rest (snd (dispatch dayjs Array_sort action ok db))
  end.

End Session.

(** Every task of the collection passes [taskSchema]. *)
Definition all_valid (dayjs : string → option Z) (ts : list Task) : Prop :=
  Forall (λ t, taskSchema_issues dayjs t = []) ts.

(** What a turn answered by the prompts shows: a notice, a success, the table,
    a write error, or the empty-title issue of the schema. *)
Definition prompted_outcome (outcome : Outcome) : Prop :=
  match outcome with
  | Notice _ | Succeeded _ | Listed _ => True
  | Failed _ WriteError => True
  | Failed _ (ZodError issues) => issues = [TitleEmpty]
  | Failed _ TypeError | Uncaught _ => False
  end.

(** * Properties *)

(** ** Lists *)

Lemma filter_all {A} (P : A → Prop) `{!∀ x, Decision (P x)} (l : list A) :
  Forall P l → filter P l = l.
Proof.
  induction 1 as [|x l Hx _ IH]; [done|].
  rewrite filter_cons_True by done. by rewrite IH.
Qed.

Lemma filter_none {A} (P : A → Prop) `{!∀ x, Decision (P x)} (l : list A) :
  Forall (λ x, ¬ P x) l → filter P l = [].
Proof.
  induction 1 as [|x l Hx _ IH]; [done|].
  by rewrite filter_cons_False.
Qed.

Lemma filter_nil_Forall {A} (P : A → Prop) `{!∀ x, Decision (P x)} (l : list A) :
  filter P l = [] → Forall (λ x, ¬ P x) l.
Proof.
  intros Hnil. apply Forall_forall. intros x Hx HP.
  by apply (filter_nil_not_elem_of P l x).
Qed.

(** Two filters that agree on the elements of the list. *)
Lemma filter_agree {A} (P Q : A → Prop)
    `{!∀ x, Decision (P x)} `{!∀ x, Decision (Q x)} (l : list A) :
  (∀ x, x ∈ l → P x ↔ Q x) → filter P l = filter Q l.
Proof.
  induction l as [|x l IH]; intros Hagree; [done|].
  assert (filter P l = filter Q l) as Hrec.
  { apply IH. intros y Hy. apply Hagree. by right. }
  destruct (decide (P x)) as [HP|HP].
  - rewrite !filter_cons_True; [by rewrite Hrec| |done].
    apply Hagree; [by left|done].
  - rewrite !filter_cons_False; [done| |done].
    intros HQ. apply HP, Hagree; [by left|done].
Qed.

Lemma length_filter_completed (ts : list Task) :
  length ts =
    (length (filter (λ t, completed t = false) ts) +
     length (filter (λ t, completed t = true) ts))%nat.
Proof.
  induction ts as [|t ts IH]; [done|].
  destruct (completed t) eqn:Hc.
  - rewrite (filter_cons_False (λ t, completed t = false)) by congruence.
    rewrite (filter_cons_True (λ t, completed t = true)) by done.
    cbn. lia.
  - rewrite (filter_cons_True (λ t, completed t = false)) by done.
    rewrite (filter_cons_False (λ t, completed t = true)) by congruence.
    cbn. lia.
Qed.

Lemma find_by_id_None taskId ts :
  find_by_id taskId ts = None ↔ Forall (λ t, id t ≠ taskId) ts.
Proof.
  unfold find_by_id. rewrite fmap_None. apply list_find_None.
Qed.

Lemma find_by_id_removed taskId ts :
  find_by_id taskId (filter (λ t, id t ≠ taskId) ts) = None.
Proof.
  apply find_by_id_None, Forall_forall.
  intros t Ht. by apply list_elem_of_filter in Ht as [? _].
Qed.

(** Replacing the element found by a task that keeps a field keeps the
    sequence of that field. *)
Lemma fmap_insert_same {B} (g : Task → B) (ts : list Task) i old new :
  ts !! i = Some old → g new = g old → g <$> <[i:=new]> ts = g <$> ts.
Proof.
  intros Hi Hg. rewrite list_fmap_insert, Hg.
  apply list_insert_id. by rewrite list_lookup_fmap, Hi.
Qed.

Lemma StronglySorted_lookup_lt {A} (R : relation A) (l : list A) i j a b :
  StronglySorted R l → (i < j)%nat → l !! i = Some a → l !! j = Some b → R a b.
Proof.
  intros Hsorted. revert i j.
  induction Hsorted as [|x l _ IH Hx]; intros i j Hij Hi Hj; [done|].
  destruct j as [|j]; [lia|]. cbn in Hj.
  destruct i as [|i]; cbn in Hi.
  - injection Hi as ->. rewrite Forall_forall in Hx.
    apply Hx. by eapply list_elem_of_lookup_2.
  - apply (IH i j); [lia|done..].
Qed.

(** ** Strict weak orders and the insertion sort *)

Section InsertionSort.

Context {A : Type} (cmp : A → A → Q) (universe : list A).
Hypothesis Hswo : strict_weak_on cmp universe.

Local Notation "a ≺ b" := (precedes cmp a b) (at level 70).
Local Notation "a ≈ b" := (tied cmp a b) (at level 70).

Lemma precedes_asym a b : a ∈ universe → b ∈ universe → a ≺ b → ¬ b ≺ a.
Proof.
  intros Ha Hb Hab Hba.
  by apply (swo_irrefl _ _ Hswo a Ha), (swo_trans _ _ Hswo a b a).
Qed.

Lemma tied_sym a b : a ≈ b → b ≈ a.
Proof. intros [? ?]. by split. Qed.

Lemma not_precedes_trans a b c :
  a ∈ universe → b ∈ universe → c ∈ universe →
  ¬ a ≺ b → ¬ b ≺ c → ¬ a ≺ c.
Proof.
  intros Ha Hb Hc Hab Hbc Hac.
  destruct (decide (b ≺ a)) as [Hba|Hba].
  { by apply Hbc, (swo_trans _ _ Hswo b a c). }
  destruct (decide (c ≺ b)) as [Hcb|Hcb].
  { by apply Hab, (swo_trans _ _ Hswo a c b). }
  by destruct (swo_tied_trans _ _ Hswo a b c Ha Hb Hc) as [Hn _].
Qed.

Lemma precedes_not_tied_via a b x :
  a ∈ universe → b ∈ universe → x ∈ universe →
  a ≺ b → x ≈ a → ¬ x ≈ b.
Proof.
  intros Ha Hb Hx Hab Hxa Hxb.
  destruct (swo_tied_trans _ _ Hswo a x b) as [Hn _]; auto using tied_sym.
Qed.

Lemma insert_by_perm x l : insert_by cmp x l ≡ₚ x :: l.
Proof.
  induction l as [|y l IH]; cbn; [done|].
  destruct (negative (cmp y x)); [|done].
  rewrite IH. apply Permutation_swap.
Qed.

Lemma insertion_sort_perm l : insertion_sort cmp l ≡ₚ l.
Proof.
  induction l as [|x l IH]; cbn; [done|].
  fold (insertion_sort cmp l). by rewrite insert_by_perm, IH.
Qed.

Lemma insert_by_sorted x l :
  x ∈ universe → l ⊆ universe →
  StronglySorted (λ a b, ¬ b ≺ a) l →
  StronglySorted (λ a b, ¬ b ≺ a) (insert_by cmp x l).
Proof.
  intros Hx Hl Hsorted. induction Hsorted as [|y l Hsorted IH Hy]; cbn.
  { repeat constructor. }
  assert (y ∈ universe) as Hyu by (apply Hl; left).
  assert (l ⊆ universe) as Hlu by (intros z Hz; apply Hl; by right).
  destruct (negative (cmp y x)) eqn:Hyx.
  - constructor; [by apply IH|].
    rewrite insert_by_perm. constructor; [|done].
    by apply precedes_asym.
  - assert (¬ y ≺ x) as Hnyx by (unfold precedes; congruence).
    constructor; [by constructor|].
    constructor; [done|].
    rewrite Forall_forall in Hy |- *. intros z Hz.
    apply (not_precedes_trans z y x); auto.
Qed.

Lemma insertion_sort_sorted l :
  l ⊆ universe → StronglySorted (λ a b, ¬ b ≺ a) (insertion_sort cmp l).
Proof.
  induction l as [|x l IH]; intros Hl; cbn; [constructor|].
  fold (insertion_sort cmp l).
  assert (l ⊆ universe) as Hlu by (intros z Hz; apply Hl; by right).
  apply insert_by_sorted; [apply Hl; left| |by apply IH].
  intros z Hz. apply Hlu. by rewrite <- (insertion_sort_perm l).
Qed.

Lemma insert_by_filter_tied w x l :
  w ∈ universe → x ∈ universe → l ⊆ universe →
  filter (tied cmp w) (insert_by cmp x l) = filter (tied cmp w) (x :: l).
Proof.
  intros Hw Hx Hl. induction l as [|y l IH]; [done|]. cbn [insert_by].
  assert (y ∈ universe) as Hyu by (apply Hl; left).
  assert (l ⊆ universe) as Hlu by (intros z Hz; apply Hl; by right).
  destruct (negative (cmp y x)) eqn:Hyx; [|done].
  destruct (decide (w ≈ y)) as [Hwy|Hwy].
  - assert (¬ w ≈ x) as Hwx by (by apply (precedes_not_tied_via y x w)).
    rewrite (filter_cons_True _ y) by done. rewrite IH by done.
    rewrite !(filter_cons_False _ x) by done.
    by rewrite filter_cons_True.
  - rewrite (filter_cons_False _ y) by done. rewrite IH by done.
    destruct (decide (w ≈ x)).
    + rewrite !(filter_cons_True _ x) by done. by rewrite filter_cons_False.
    + rewrite !(filter_cons_False _ x) by done. by rewrite filter_cons_False.
Qed.

Lemma insertion_sort_filter_tied w l :
  w ∈ universe → l ⊆ universe →
  filter (tied cmp w) (insertion_sort cmp l) = filter (tied cmp w) l.
Proof.
  intros Hw. induction l as [|x l IH]; intros Hl; [done|].
  change (insertion_sort cmp (x :: l)) with (insert_by cmp x (insertion_sort cmp l)).
  assert (l ⊆ universe) as Hlu by (intros z Hz; apply Hl; by right).
  rewrite insert_by_filter_tied; [|done|apply Hl; left|].
  - rewrite !filter_cons. by rewrite IH.
  - intros z Hz. apply Hlu. by rewrite <- (insertion_sort_perm l).
Qed.

End InsertionSort.

(** The insertion sort honours the contract of the engine's sort. *)
Lemma insertion_sort_stable_sort_of {A} (cmp : A → A → Q) (l : list A) :
  strict_weak_on cmp l → stable_sort_of cmp l (insertion_sort cmp l).
Proof.
  intros Hswo. split.
  - apply insertion_sort_perm.
  - by apply (insertion_sort_sorted cmp l).
  - intros x Hx. by apply (insertion_sort_filter_tied cmp l).
Qed.

(** ** The commands on a store whose [tasks] array is [ts] *)

Section Commands.

Variable dayjs : string → option Z.
Variable Array_sort : (Task → Task → Q) → list Task → list Task.

(** Unfolds the steps of a command body on a given store. *)
Ltac run_eff :=
  unfold mbind, mret, Eff_bind, Eff_ret, throw,
    get_tasks, assign_tasks, write, in_memory;
  cbn -[list_find filter pretty].

Lemma addTask_eq now stamp answers ok ts f :
  addTask dayjs now stamp answers ok (in_memory ts f) =
    let t := newTask now stamp answers in
    match taskSchema_issues dayjs t with
    | [] => if ok then (Succeeded "Task added successfully!", store_of (ts ++ [t]))
            else (Failed "Failed to add task: " WriteError, in_memory (ts ++ [t]) f)
    | issues => (Failed "Failed to add task: " (ZodError issues), in_memory ts f)
    end.
Proof.
  unfold addTask, try_catch, taskSchema_parse; cbn.
  destruct (taskSchema_issues dayjs _); [destruct ok|]; reflexivity.
Qed.

Lemma updateTask_eq taskId answers ok ts f :
  updateTask dayjs taskId answers ok (in_memory ts f) =
    match ts with
    | [] => (Notice "No tasks available to update.", in_memory ts f)
    | _ =>
      match list_find (λ t, id t = taskId) ts with
      | None => (Uncaught TypeError, in_memory ts f)
      | Some (i, task) =>
          let u := merge_answers task answers in
          match taskSchema_issues dayjs u with
          | [] => if ok then (Succeeded "Task updated successfully!", store_of (<[i:=u]> ts))
                  else (Failed "Failed to update task: " WriteError, in_memory (<[i:=u]> ts) f)
          | issues => (Failed "Failed to update task: " (ZodError issues), in_memory ts f)
          end
      end
    end.
Proof.
  destruct ts as [|t0 ts0]; [reflexivity|].
  unfold updateTask, with_tasks, find_by_id, findIndex_by_id; cbn -[list_find].
  destruct (list_find _ (t0 :: ts0)) as [[i task]|] eqn:Hfind; cbn -[list_find];
    [|reflexivity].
  unfold try_catch, taskSchema_parse.
  destruct (taskSchema_issues dayjs _); [|reflexivity].
  run_eff. rewrite Hfind. destruct ok; reflexivity.
Qed.

Lemma markComplete_eq taskId ok ts f :
  markComplete taskId ok (in_memory ts f) =
    match filter (λ t, completed t = false) ts with
    | [] => (Notice "No incomplete tasks available.", in_memory ts f)
    | _ =>
      match list_find (λ t, id t = taskId) ts with
      | None => (Failed "Failed to update task: " TypeError, in_memory ts f)
      | Some (i, t) =>
          if ok then (Succeeded "Task marked as completed!", store_of (<[i:=set_completed t]> ts))
          else (Failed "Failed to update task: " WriteError, in_memory (<[i:=set_completed t]> ts) f)
      end
    end.
Proof.
  unfold markComplete, with_tasks; cbn -[list_find filter].
  destruct (filter _ ts); [reflexivity|]; cbn -[list_find filter].
  unfold try_catch; run_eff.
  destruct (list_find _ ts) as [[i found]|]; [destruct ok|]; reflexivity.
Qed.

Lemma removeTask_eq taskId confirm ok ts f :
  removeTask taskId confirm ok (in_memory ts f) =
    match ts with
    | [] => (Notice "No tasks available to remove.", in_memory ts f)
    | _ =>
      if confirm then
        let ts' := filter (λ t, id t ≠ taskId) ts in
        if ok then (Succeeded "Task removed successfully!", store_of ts')
        else (Failed "Failed to remove task: " WriteError, in_memory ts' f)
      else (Notice "Task removal cancelled.", in_memory ts f)
    end.
Proof.
  destruct ts as [|t0 ts0]; [reflexivity|].
  unfold removeTask, with_tasks, try_catch; run_eff.
  destruct confirm, ok; reflexivity.
Qed.

Lemma clearCompleted_eq confirm ok ts f :
  clearCompleted confirm ok (in_memory ts f) =
    match filter (λ t, completed t = true) ts with
    | [] => (Notice "No completed tasks to clear.", in_memory ts f)
    | completedTasks =>
      if confirm then
        let ts' := filter (λ t, completed t = false) ts in
        if ok then (Succeeded ("Cleared " +:+ pretty (length completedTasks) +:+ " task(s)!"),
                    store_of ts')
        else (Failed "Failed to clear tasks: " WriteError, in_memory ts' f)
      else (Notice "Clear operation cancelled.", in_memory ts f)
    end.
Proof.
  unfold clearCompleted, with_tasks, try_catch; run_eff.
  destruct (filter (λ t, completed t = true) ts); [reflexivity|].
  destruct confirm, ok; reflexivity.
Qed.

Lemma listTasks_eq sortBy showCompleted ts f :
  listTasks dayjs Array_sort sortBy showCompleted (in_memory ts f) =
    match ts with
    | [] => (Notice "No tasks found.", in_memory ts f)
    | _ => (Listed (tasksToDisplay dayjs Array_sort sortBy showCompleted ts), in_memory ts f)
    end.
Proof. destruct ts; reflexivity. Qed.

(** ** Persistence failures *)

(** C1 (as amended). When the write of a mutating command is rejected, the
    command reports the failure, the file keeps its content, and the
    mutation stays in memory: [db.data.tasks] is the array as the command
    changed it, not the array last persisted. *)
Theorem failed_write_keeps_mutation action ts f prefix db' :
  dispatch dayjs Array_sort action false (in_memory ts f) = (Failed prefix WriteError, db') →
  file db' = f ∧ mem_tasks db' = Some (mutated action ts).
Proof.
  destruct action as [now stamp answers|sortBy showCompleted|taskId answers
                     |taskId|taskId confirm|confirm]; cbn [dispatch mutated].
  - rewrite addTask_eq; cbn zeta.
    destruct (taskSchema_issues dayjs _); intros [= <- <-]; done.
  - rewrite listTasks_eq. destruct ts; intros [=].
  - rewrite updateTask_eq. destruct ts as [|t0 ts0]; [intros [=]|].
    destruct (list_find _ (t0 :: ts0)) as [[i task]|]; [|intros [=]]; cbn zeta.
    destruct (taskSchema_issues dayjs _); intros [= <- <-]; done.
  - rewrite markComplete_eq. destruct (filter _ ts); [intros [=]|].
    destruct (list_find _ ts) as [[i t0]|]; intros [= <- <-]; done.
  - rewrite removeTask_eq. destruct ts as [|t0 ts0]; [intros [=]|].
    destruct confirm; intros [= <- <-]; done.
  - rewrite clearCompleted_eq. destruct (filter (λ t, completed t = true) ts); [intros [=]|].
    destruct confirm; intros [= <- <-]; done.
Qed.

(** A command that succeeds when its write is accepted reports the write
    error when it is rejected, with the same array in memory. *)
Lemma rejected_write_reported action ts f msg db1 :
  dispatch dayjs Array_sort action true (in_memory ts f) = (Succeeded msg, db1) →
  ∃ prefix, dispatch dayjs Array_sort action false (in_memory ts f) =
              (Failed prefix WriteError, mkLow (data db1) f).
Proof.
  destruct action as [now stamp answers|sortBy showCompleted|taskId answers
                     |taskId|taskId confirm|confirm]; cbn [dispatch].
  - rewrite !addTask_eq; cbn zeta.
    destruct (taskSchema_issues dayjs _); intros [= <- <-]; by eexists.
  - rewrite !listTasks_eq. destruct ts; intros [=].
  - rewrite !updateTask_eq. destruct ts as [|t0 ts0]; [intros [=]|].
    destruct (list_find _ (t0 :: ts0)) as [[i task]|]; [|intros [=]]; cbn zeta.
    destruct (taskSchema_issues dayjs _); intros [= <- <-]; by eexists.
  - rewrite !markComplete_eq. destruct (filter _ ts); [intros [=]|].
    destruct (list_find _ ts) as [[i t0]|]; intros [= <- <-]; by eexists.
  - rewrite !removeTask_eq. destruct ts as [|t0 ts0]; [intros [=]|].
    destruct confirm; intros [= <- <-]; by eexists.
  - rewrite !clearCompleted_eq.
    destruct (filter (λ t, completed t = true) ts); [intros [=]|].
    destruct confirm; intros [= <- <-]; by eexists.
Qed.

(** ** Removal *)

(** C3 (as amended). [removeTask] never fails for a missing task. Its
    id is one of the stored ids, offered by the list prompt, so no task
    carries the id only on an empty collection: the command then returns
    with a notice, not a failure, and leaves the store as it is. When a
    task carries the id and the removal is confirmed, every task carrying
    it is dropped from the collection, the command reports success when
    the write is accepted and the write error when it is rejected, and a
    later [find] by that id finds nothing. *)
Theorem removeTask_prompted taskId confirm ok ts f :
  ts = [] ∨ taskId ∈ id <$> ts →
  let kept := filter (λ t, id t ≠ taskId) ts in
  (find_by_id taskId ts = None →
     ts = []
     ∧ removeTask taskId confirm ok (in_memory ts f) =
         (Notice "No tasks available to remove.", in_memory ts f))
  ∧ (is_Some (find_by_id taskId ts) →
       removeTask taskId true ok (in_memory ts f) =
         (if ok then (Succeeded "Task removed successfully!", store_of kept)
          else (Failed "Failed to remove task: " WriteError, in_memory kept f))
       ∧ find_by_id taskId kept = None).
Proof.
  intros Hoffered kept. split.
  - intros Habsent.
    assert (ts = []) as ->.
    { destruct Hoffered as [?|Hin]; [done|].
      apply find_by_id_None in Habsent. rewrite Forall_forall in Habsent.
      apply list_elem_of_fmap in Hin as (t & -> & Ht). by destruct (Habsent t Ht). }
    split; [done|]. by rewrite removeTask_eq.
  - intros [t Hfound]. split; [|apply find_by_id_removed].
    rewrite removeTask_eq. destruct ts; [done|]. done.
Qed.

(** ** Completion *)

(** C6 (as amended). [markComplete] never fails for a missing task. Its
    id is the id of an incomplete task, offered by the list prompt. When
    the collection holds no incomplete task the command returns with a
    notice, not a success and not a failure, and leaves the store as it
    is, whether or not a task carries the id; so does a second
    [markComplete] once no incomplete task remains. Otherwise the first
    task carrying the id has [completed] set to [true] in memory, every
    other task is untouched, and the command reports success when the
    write is accepted and the write error, the flag staying set in
    memory, when it is rejected. *)
Theorem markComplete_prompted taskId ok ts f :
  let incompleteTasks := filter (λ t, completed t = false) ts in
  incompleteTasks = [] ∨ taskId ∈ id <$> incompleteTasks →
  let result := markComplete taskId ok (in_memory ts f) in
  (incompleteTasks = [] →
     result = (Notice "No incomplete tasks available.", in_memory ts f))
  ∧ (incompleteTasks ≠ [] →
       ∃ i t, ts !! i = Some t ∧ id t = taskId
         ∧ (∀ j u, ts !! j = Some u → (j < i)%nat → id u ≠ taskId)
         ∧ <[i:=set_completed t]> ts !! i = Some (set_completed t)
         ∧ completed (set_completed t) = true
         ∧ (∀ j, j ≠ i → <[i:=set_completed t]> ts !! j = ts !! j)
         ∧ result =
             (if ok
              then (Succeeded "Task marked as completed!",
                    store_of (<[i:=set_completed t]> ts))
              else (Failed "Failed to update task: " WriteError,
                    in_memory (<[i:=set_completed t]> ts) f)))
  ∧ (∀ ts1 ok2, mem_tasks (snd result) = Some ts1 →
       filter (λ t, completed t = false) ts1 = [] →
       markComplete taskId ok2 (snd result) =
         (Notice "No incomplete tasks available.", snd result)).
Proof.
  intros incompleteTasks Hoffered result. subst result incompleteTasks.
  rewrite markComplete_eq. split; [by intros ->|]. split.
  - intros Hsome.
    destruct (filter (λ t, completed t = false) ts) as [|t0 rest] eqn:Hfilter; [done|].
    destruct Hoffered as [?|Hin]; [done|].
    apply list_elem_of_fmap in Hin as (t & -> & Ht).
    assert (t ∈ ts) as Hts.
    { rewrite <- Hfilter in Ht. by apply list_elem_of_filter in Ht as [_ ?]. }
    destruct (list_find_elem_of (λ u, id u = id t) ts t Hts eq_refl) as [[i u] Hfind].
    rewrite Hfind. apply list_find_Some in Hfind as (Hi & Hu & Hfirst).
    exists i, u. split_and!; try done.
    + apply list_lookup_insert_eq. by eapply lookup_lt_Some.
    + intros j Hj. by apply list_lookup_insert_ne.
  - intros ts1 ok2 Hmem Hnone.
    destruct (filter (λ t, completed t = false) ts) as [|t0 rest];
      [|destruct (list_find _ ts) as [[i u]|]; [destruct ok|]];
      cbn [snd] in *; injection Hmem as <-;
      unfold store_of; by rewrite markComplete_eq, Hnone.
Qed.

(** ** Update *)

(** C7. After a successful [updateTask] the stored tasks carry, position by
    position, the ids, creation stamps and completion flags they carried
    before; the task at the index found for the id took its title,
    description, due date and priority from the answers, and every other
    task is the one stored before. *)
Theorem updateTask_keeps_id_createdAt taskId answers ok ts f msg db' :
  updateTask dayjs taskId answers ok (in_memory ts f) = (Succeeded msg, db') →
  ∃ ts', db' = store_of ts'
    ∧ id <$> ts' = id <$> ts
    ∧ createdAt <$> ts' = createdAt <$> ts
    ∧ completed <$> ts' = completed <$> ts
    ∧ ∃ i old new, ts !! i = Some old ∧ ts' !! i = Some new ∧ id old = taskId
        ∧ id new = id old ∧ createdAt new = createdAt old
        ∧ title new = a_title answers ∧ description new = a_description answers
        ∧ dueDate new = a_dueDate answers ∧ priority new = a_priority answers
        ∧ ∀ j, j ≠ i → ts' !! j = ts !! j.
Proof.
  rewrite updateTask_eq. destruct ts as [|t0 ts0]; [intros [=]|].
  destruct (list_find _ (t0 :: ts0)) as [[i old]|] eqn:Hfind; [|intros [=]].
  cbn zeta. destruct (taskSchema_issues dayjs _); [|intros [=]].
  destruct ok; intros [= <- <-].
  apply list_find_Some in Hfind as (Hi & Hid & _).
  exists (<[i:=merge_answers old answers]> (t0 :: ts0)). split; [done|].
  split_and!; try by apply fmap_insert_same with old.
  exists i, old, (merge_answers old answers). split_and!; try done.
  - apply list_lookup_insert_eq. by eapply lookup_lt_Some.
  - intros j Hj. by apply list_lookup_insert_ne.
Qed.

(** ** Clearing *)

(** C8. Once confirmed, [clearCompleted] leaves no completed task in the
    collection; the number of tasks removed is the number of tasks that
    were completed, and it is the count the success message reports; when
    no task is completed the command returns with a notice, not a
    failure. *)
Theorem clearCompleted_count ok ts f :
  let n := length (filter (λ t, completed t = true) ts) in
  let kept := filter (λ t, completed t = false) ts in
  ∃ outcome db', clearCompleted true ok (in_memory ts f) = (outcome, db')
    ∧ mem_tasks db' = Some kept
    ∧ Forall (λ t, completed t = false) kept
    ∧ length ts = (length kept + n)%nat
    ∧ outcome =
        (if (n =? 0)%nat then Notice "No completed tasks to clear."
         else if ok then Succeeded ("Cleared " +:+ pretty n +:+ " task(s)!")
         else Failed "Failed to clear tasks: " WriteError).
Proof.
  intros n kept. rewrite clearCompleted_eq.
  assert (Forall (λ t, completed t = false) kept) as Hkept.
  { apply Forall_forall. intros t Ht. by apply list_elem_of_filter in Ht as [? _]. }
  pose proof (length_filter_completed ts) as Hlen.
  subst n. destruct (filter (λ t, completed t = true) ts) as [|t0 rest] eqn:Hdone.
  - eexists _, _. split; [done|]. split_and!; try done.
    cbn. f_equal. symmetry. apply filter_all.
    apply filter_nil_Forall in Hdone.
    eapply Forall_impl; [exact Hdone|]. cbn. intros t. by destruct (completed t).
  - destruct ok; eexists _, _; (split; [done|]); split_and!; done.
Qed.

(** ** Start-up *)

(** C9 (as amended). [initializeDB] returns normally when its write is
    accepted and throws the write error when it is rejected; either way
    the document in memory is the persisted one, or [{ tasks: [] }] when
    there is none, and the file holds it once the write is accepted. So
    the collection is empty when there is no persisted document and when
    the persisted document holds an empty [tasks] list; a persisted
    document without a [tasks] field is kept as it is, and the collection
    stays undefined. *)
Theorem initializeDB_default d0 ok :
  let load f := initializeDB ok (mkLow d0 f) in
  (∀ f, load f =
          (if ok then Normal () else Throw WriteError,
           let d := default (mkData (Some [])) f in
           mkLow (Some d) (if ok then Some d else f)))
  ∧ mem_tasks (snd (load None)) = Some []
  ∧ mem_tasks (snd (load (Some (mkData (Some []))))) = Some []
  ∧ mem_tasks (snd (load (Some (mkData None)))) = None
  ∧ ∀ f, mem_tasks (snd (load f)) = match f with None => Some [] | Some d => tasks d end.
Proof.
  cbn zeta. split_and!; try (by destruct ok).
  - intros [d|]; by destruct ok.
  - intros [d|]; by destruct ok.
Qed.

(** ** Order of the collection *)

(** C10. A command changes the array only by appending one task at the end
    ([addTask]), by replacing one task at its index ([updateTask],
    [markComplete]) or by filtering ([removeTask], [clearCompleted]): the
    tasks that remain keep their relative order. *)
Theorem commands_keep_order action ok ts f :
  ∃ ts', mem_tasks (snd (dispatch dayjs Array_sort action ok (in_memory ts f))) = Some ts'
    ∧ match action with
      | act_add now stamp answers =>
          ts' = ts ∨ ts' = ts ++ [newTask now stamp answers]
      | act_list _ _ => ts' = ts
      | act_update taskId answers =>
          ts' = ts ∨ ∃ i old, ts !! i = Some old ∧ id old = taskId
                      ∧ ts' = <[i:=merge_answers old answers]> ts
                      ∧ id <$> ts' = id <$> ts
      | act_complete taskId =>
          ts' = ts ∨ ∃ i old, ts !! i = Some old ∧ id old = taskId
                      ∧ ts' = <[i:=set_completed old]> ts
                      ∧ id <$> ts' = id <$> ts
      | act_remove taskId _ =>
          (ts' = ts ∨ ts' = filter (λ t, id t ≠ taskId) ts) ∧ ts' `sublist_of` ts
      | act_clear _ =>
          (ts' = ts ∨ ts' = filter (λ t, completed t = false) ts) ∧ ts' `sublist_of` ts
      end.
Proof.
  destruct action as [now stamp answers|sortBy showCompleted|taskId answers
                     |taskId|taskId confirm|confirm]; cbn [dispatch].
  - rewrite addTask_eq; cbn zeta.
    destruct (taskSchema_issues dayjs _); [destruct ok|]; eexists; eauto.
  - rewrite listTasks_eq. destruct ts; eexists; eauto.
  - rewrite updateTask_eq. destruct ts as [|t0 ts0]; [eexists; eauto|].
    destruct (list_find _ (t0 :: ts0)) as [[i old]|] eqn:Hfind; [|eexists; eauto].
    apply list_find_Some in Hfind as (Hi & Hid & _). cbn zeta.
    destruct (taskSchema_issues dayjs _); [|eexists; eauto].
    destruct ok; (eexists; split; [done|]); right; exists i, old;
      split_and!; try done; by apply fmap_insert_same with old.
  - rewrite markComplete_eq. destruct (filter _ ts); [eexists; eauto|].
    destruct (list_find _ ts) as [[i old]|] eqn:Hfind; [|eexists; eauto].
    apply list_find_Some in Hfind as (Hi & Hid & _).
    destruct ok; (eexists; split; [done|]); right; exists i, old;
      split_and!; try done; by apply fmap_insert_same with old.
  - rewrite removeTask_eq. destruct ts as [|t0 ts0]; [eexists; eauto|].
    destruct confirm; [destruct ok|]; (eexists; split; [done|]); split;
      eauto using sublist_filter.
  - rewrite clearCompleted_eq.
    destruct (filter (λ t, completed t = true) ts); [eexists; eauto|].
    destruct confirm; [destruct ok|]; (eexists; split; [done|]); split;
      eauto using sublist_filter.
Qed.

(** ** Validation *)

(** What [taskSchema] accepts: a title of at least one code unit, a due
    date that dayjs holds valid, a priority in the interval from 1 to 3. *)
Lemma taskSchema_accepts t :
  taskSchema_issues dayjs t = [] ↔
    title t ≠ "" ∧ is_Some (dayjs (dueDate t)) ∧ (1 <= priority t)%Q ∧ (priority t <= 3)%Q.
Proof.
  unfold taskSchema_issues, title_issues, dueDate_issues, priority_issues, isValid.
  rewrite <- !Qle_bool_iff.
  destruct (title t) as [|c rest]; cbn [String.length Nat.ltb Nat.leb];
    case_bool_decide as Hdate;
    destruct (Qle_bool 1 (priority t)), (Qle_bool (priority t) 3); cbn;
    (split; [intros [=]; done | intros (? & ? & ? & ?); done]).
Qed.

(** A task the schema rejects never reaches the collection. *)
Lemma addTask_rejected now stamp answers ok ts f :
  taskSchema_issues dayjs (newTask now stamp answers) ≠ [] →
  addTask dayjs now stamp answers ok (in_memory ts f) =
    (Failed "Failed to add task: "
       (ZodError (taskSchema_issues dayjs (newTask now stamp answers))),
     in_memory ts f).
Proof.
  intros Hissues. rewrite addTask_eq. cbn zeta.
  by destruct (taskSchema_issues dayjs _).
Qed.

Lemma updateTask_rejected taskId answers ok ts f i old :
  list_find (λ t, id t = taskId) ts = Some (i, old) →
  taskSchema_issues dayjs (merge_answers old answers) ≠ [] →
  updateTask dayjs taskId answers ok (in_memory ts f) =
    (Failed "Failed to update task: "
       (ZodError (taskSchema_issues dayjs (merge_answers old answers))),
     in_memory ts f).
Proof.
  intros Hfind Hissues. rewrite updateTask_eq, Hfind. cbn zeta.
  destruct ts; [done|]. by destruct (taskSchema_issues dayjs _).
Qed.

Lemma priority_choice_in_range p :
  priority_choice p = true → (1 <= p)%Q ∧ (p <= 3)%Q.
Proof.
  unfold priority_choice. rewrite !orb_true_iff, !Qeq_bool_iff.
  intros [[Hp|Hp]|Hp]; rewrite Hp; split; by apply Qle_bool_iff.
Qed.

(** The prompts of [updateTask] and the schema only ask the title to be
    non-empty: whatever the title consists of, the update goes through. *)
Lemma updateTask_title_not_trimmed taskId answers ts f i old :
  list_find (λ t, id t = taskId) ts = Some (i, old) →
  a_title answers ≠ "" →
  update_prompt_accepts dayjs answers = true →
  updateTask dayjs taskId answers true (in_memory ts f) =
    (Succeeded "Task updated successfully!",
     store_of (<[i:=merge_answers old answers]> ts)).
Proof.
  intros Hfind Htitle Hprompt. rewrite updateTask_eq, Hfind. cbn zeta.
  apply andb_true_iff in Hprompt as [Hdate Hprio].
  apply priority_choice_in_range in Hprio as [Hlo Hhi].
  assert (taskSchema_issues dayjs (merge_answers old answers) = []) as ->.
  { apply taskSchema_accepts. split_and!; try done.
    unfold isValid in Hdate. by apply bool_decide_eq_true in Hdate. }
  by destruct ts.
Qed.

(** The due dates in the collection stay valid from command to command. *)
Lemma commands_keep_dueDate_valid action ok ts f ts' :
  Forall (λ t, is_Some (dayjs (dueDate t))) ts →
  mem_tasks (snd (dispatch dayjs Array_sort action ok (in_memory ts f))) = Some ts' →
  Forall (λ t, is_Some (dayjs (dueDate t))) ts'.
Proof.
  intros Hvalid.
  assert (∀ P `{!∀ t, Decision (P t)},
            Forall (λ t, is_Some (dayjs (dueDate t))) (filter P ts)) as Hfilter.
  { intros P ?. apply Forall_forall. intros t Ht.
    apply list_elem_of_filter in Ht as [_ Ht].
    rewrite Forall_forall in Hvalid. by apply Hvalid. }
  destruct action as [now stamp answers|sortBy showCompleted|taskId answers
                     |taskId|taskId confirm|confirm]; cbn [dispatch].
  - rewrite addTask_eq; cbn zeta.
    destruct (taskSchema_issues dayjs _) eqn:Hissues;
      [destruct ok|]; intros [= <-]; try done;
      (apply Forall_app; split; [done|]; apply Forall_singleton;
       by apply taskSchema_accepts in Hissues as (_ & ? & _)).
  - rewrite listTasks_eq. destruct ts; by intros [= <-].
  - rewrite updateTask_eq. destruct ts as [|t0 ts0]; [by intros [= <-]|].
    destruct (list_find _ (t0 :: ts0)) as [[i old]|]; [|by intros [= <-]].
    cbn zeta. destruct (taskSchema_issues dayjs _) eqn:Hissues;
      [destruct ok|]; intros [= <-]; try done;
      (apply Forall_insert; [done|];
       by apply taskSchema_accepts in Hissues as (_ & ? & _)).
  - rewrite markComplete_eq. destruct (filter _ ts); [by intros [= <-]|].
    destruct (list_find _ ts) as [[i old]|] eqn:Hfind; [|by intros [= <-]].
    apply list_find_Some in Hfind as (Hi & _).
    assert (is_Some (dayjs (dueDate (set_completed old)))) as Hold.
    { change (is_Some (dayjs (dueDate old))).
      apply (proj1 (Forall_forall _ _) Hvalid old).
      by eapply list_elem_of_lookup_2. }
    destruct ok; intros [= <-]; by apply Forall_insert.
  - rewrite removeTask_eq. destruct ts as [|t0 ts0]; [by intros [= <-]|].
    destruct confirm; [destruct ok|]; intros [= <-]; auto.
  - rewrite clearCompleted_eq.
    destruct (filter (λ t, completed t = true) ts); [by intros [= <-]|].
    destruct confirm; [destruct ok|]; intros [= <-]; auto.
Qed.

(** ** Identifiers *)

(** C4 (as amended). [addTask] does not look for the id in the collection
    and has no duplicate-id failure. Over a sequence of additions the ids
    stay pairwise distinct provided they were so at the start, the clock
    readings of the additions are pairwise distinct, and none of them is
    printed as an id already present. *)
Theorem adds_keep_ids_distinct entries ts f :
  NoDup (id <$> ts) →
  NoDup (clock <$> entries) →
  (∀ e, e ∈ entries → pretty (clock e) ∉ id <$> ts) →
  ∃ ts', mem_tasks (snd (mainMenu dayjs Array_sort (add_turn <$> entries) (in_memory ts f)))
           = Some ts'
    ∧ NoDup (id <$> ts').
Proof.
  revert ts f. induction entries as [|e entries IH]; intros ts f Hts Hclock Hfresh.
  { by exists ts. }
  destruct e as [[[now stamp] answers] ok].
  rewrite fmap_cons in Hclock. apply NoDup_cons in Hclock as [Hnow Hclock].
  assert (pretty now ∉ id <$> ts) as Hnew.
  { apply (Hfresh (now, stamp, answers, ok)). left. }
  assert (NoDup (id <$> ts ++ [newTask now stamp answers])) as Hts1.
  { rewrite fmap_app. apply NoDup_app. split_and!; [done| |apply NoDup_singleton].
    intros x Hx Hx'. apply list_elem_of_singleton in Hx'. by subst x. }
  assert (∀ e, e ∈ entries →
            pretty (clock e) ∉ id <$> ts ++ [newTask now stamp answers]) as Hfresh1.
  { intros e He. rewrite fmap_app. intros Hin.
    apply elem_of_app in Hin as [Hin|Hin].
    - apply (Hfresh e); [by right|done].
    - apply list_elem_of_singleton in Hin. cbn in Hin.
      apply (pretty_Z_inj _ _) in Hin. apply Hnow.
      change (clock (now, stamp, answers, ok)) with now. rewrite <- Hin.
      by apply list_elem_of_fmap_2. }
  assert (∀ e, e ∈ entries → pretty (clock e) ∉ id <$> ts) as Hfresh0.
  { intros e He. apply Hfresh. by right. }
  rewrite fmap_cons. unfold add_turn at 1. cbn [fst snd mainMenu dispatch].
  rewrite addTask_eq. cbn zeta.
  destruct (taskSchema_issues dayjs _); [destruct ok|].
  - destruct (IH (ts ++ [newTask now stamp answers])
                (Some (mkData (Some (ts ++ [newTask now stamp answers]))))
                Hts1 Hclock Hfresh1) as (ts' & Hmem & Hnodup).
    exists ts'. split; [|done]. unfold store_of.
    by destruct (mainMenu _ _ _ _).
  - destruct (IH (ts ++ [newTask now stamp answers]) f Hts1 Hclock Hfresh1)
      as (ts' & Hmem & Hnodup).
    exists ts'. split; [|done]. by destruct (mainMenu _ _ _ _).
  - destruct (IH ts f Hts Hclock Hfresh0) as (ts' & Hmem & Hnodup).
    exists ts'. split; [|done]. by destruct (mainMenu _ _ _ _).
Qed.

(** ** Listing by date *)

(** On two valid dates the compare function is negative exactly when the
    first instant is earlier. *)
Lemma compareFn_date_precedes sortBy a b x y :
  date_key sortBy →
  dayjs (date_of sortBy a) = Some x → dayjs (date_of sortBy b) = Some y →
  precedes (compareFn dayjs sortBy) a b ↔ x < y.
Proof.
  intros Hkey Hx Hy. unfold precedes.
  assert (compareFn dayjs sortBy a b =
          if isBefore dayjs (date_of sortBy a) (date_of sortBy b) then (-1)%Q else 1%Q)
    as -> by (by destruct Hkey as [-> | ->]).
  unfold isBefore. rewrite Hx, Hy.
  case_bool_decide; cbn; split; (done || lia || intros [=]).
Qed.

(** The compare function never answers 0 on dates: a task compared with
    itself gives 1. Only the sign test above carries information. *)
Lemma compareFn_date_self sortBy a :
  date_key sortBy → compareFn dayjs sortBy a a = 1%Q.
Proof.
  intros Hkey.
  assert (isBefore dayjs (date_of sortBy a) (date_of sortBy a) = false) as Hself.
  { unfold isBefore. destruct (dayjs (date_of sortBy a)); [|done].
    apply bool_decide_eq_false. lia. }
  destruct Hkey as [-> | ->]; cbn [compareFn]; by rewrite Hself.
Qed.

Lemma compareFn_date_tied sortBy a b x y :
  date_key sortBy →
  dayjs (date_of sortBy a) = Some x → dayjs (date_of sortBy b) = Some y →
  tied (compareFn dayjs sortBy) a b ↔ x = y.
Proof.
  intros Hkey Hx Hy. unfold tied.
  rewrite (compareFn_date_precedes sortBy a b x y) by done.
  rewrite (compareFn_date_precedes sortBy b a y x) by done. lia.
Qed.

Lemma compareFn_date_swo sortBy l :
  date_key sortBy →
  Forall (λ t, is_Some (dayjs (date_of sortBy t))) l →
  strict_weak_on (compareFn dayjs sortBy) l.
Proof.
  intros Hkey Hvalid. rewrite Forall_forall in Hvalid. split.
  - intros a Ha. destruct (Hvalid a Ha) as [x Hx].
    rewrite (compareFn_date_precedes sortBy a a x x) by done. lia.
  - intros a b c Ha Hb Hc.
    destruct (Hvalid a Ha) as [x Hx], (Hvalid b Hb) as [y Hy], (Hvalid c Hc) as [z Hz].
    rewrite (compareFn_date_precedes sortBy a b x y) by done.
    rewrite (compareFn_date_precedes sortBy b c y z) by done.
    rewrite (compareFn_date_precedes sortBy a c x z) by done. lia.
  - intros a b c Ha Hb Hc.
    destruct (Hvalid a Ha) as [x Hx], (Hvalid b Hb) as [y Hy], (Hvalid c Hc) as [z Hz].
    rewrite (compareFn_date_tied sortBy a b x y) by done.
    rewrite (compareFn_date_tied sortBy b c y z) by done.
    rewrite (compareFn_date_tied sortBy a c x z) by done. lia.
Qed.

(** The engine's sort is a stable sort for the test [comparefn(a, b) < 0]. *)
Hypothesis Array_sort_stable :
  ∀ cmp l, strict_weak_on cmp l → stable_sort_of cmp l (Array_sort cmp l).

(** C5. With the key [dueDate] or [createdAt], on tasks whose dates are
    valid, [listTasks] prints the tasks it shows in non-decreasing order
    of their instants, and the tasks of one instant in the order they have
    in the collection. *)
Theorem listTasks_by_date_stable sortBy (showCompleted : bool) ts f :
  date_key sortBy →
  Forall (λ t, is_Some (dayjs (date_of sortBy t))) ts →
  let instant t := dayjs (date_of sortBy t) in
  let shown := if showCompleted then ts else filter (λ t, completed t = false) ts in
  let rows := tasksToDisplay dayjs Array_sort sortBy showCompleted ts in
  listTasks dayjs Array_sort sortBy showCompleted (in_memory ts f) =
    (match ts with [] => Notice "No tasks found." | _ => Listed rows end, in_memory ts f)
  ∧ rows ≡ₚ shown
  ∧ (∀ i j a b, (i < j)%nat → rows !! i = Some a → rows !! j = Some b →
       ∃ x y, instant a = Some x ∧ instant b = Some y ∧ x ≤ y)
  ∧ (∀ d, filter (λ t, instant t = Some d) rows = filter (λ t, instant t = Some d) shown).
Proof.
  intros Hkey Hvalid instant shown rows.
  assert (Forall (λ t, is_Some (instant t)) shown) as Hshown.
  { subst shown. destruct showCompleted; [done|].
    apply Forall_forall. intros t Ht. apply list_elem_of_filter in Ht as [_ Ht].
    rewrite Forall_forall in Hvalid. by apply Hvalid. }
  destruct (Array_sort_stable (compareFn dayjs sortBy) shown) as [Hperm Hsorted Hstable].
  { by apply compareFn_date_swo. }
  change (Array_sort (compareFn dayjs sortBy) shown) with rows in Hperm, Hsorted, Hstable.
  assert (Forall (λ t, is_Some (instant t)) rows) as Hrows by (by rewrite Hperm).
  rewrite Forall_forall in Hshown, Hrows.
  split; [rewrite listTasks_eq; by destruct ts|].
  split; [done|]. split.
  - intros i j a b Hij Hi Hj.
    destruct (Hrows a) as [x Hx]; [by eapply list_elem_of_lookup_2|].
    destruct (Hrows b) as [y Hy]; [by eapply list_elem_of_lookup_2|].
    exists x, y. split_and!; [done..|].
    pose proof (StronglySorted_lookup_lt _ _ i j a b Hsorted Hij Hi Hj) as Hab.
    cbn in Hab. rewrite (compareFn_date_precedes sortBy b a y x) in Hab by done. lia.
  - intros d.
    destruct (filter (λ t, instant t = Some d) shown) as [|w rest] eqn:Hclass.
    + apply filter_none, Forall_forall. intros t Ht.
      apply filter_nil_Forall in Hclass. rewrite Forall_forall in Hclass.
      apply Hclass. by rewrite <- Hperm.
    + assert (w ∈ shown ∧ instant w = Some d) as [Hw Hwd].
      { assert (w ∈ filter (λ t, instant t = Some d) shown) as Hin
          by (rewrite Hclass; left).
        apply list_elem_of_filter in Hin as [? ?]. done. }
      rewrite <- Hclass.
      rewrite (filter_agree _ (tied (compareFn dayjs sortBy) w) rows).
      2:{ intros t Ht. destruct (Hrows t Ht) as [x Hx].
          rewrite (compareFn_date_tied sortBy w t d x) by done.
          unfold instant in Hx |- *. rewrite Hx. split; congruence. }
      rewrite (filter_agree _ (tied (compareFn dayjs sortBy) w) shown).
      2:{ intros t Ht. destruct (Hshown t Ht) as [x Hx].
          rewrite (compareFn_date_tied sortBy w t d x) by done.
          unfold instant in Hx |- *. rewrite Hx. split; congruence. }
      by apply Hstable.
Qed.

End Commands.

(** * The model at work: examples, witnesses and counterexamples *)

(** The scenario of the specification: add, list, complete, list without
    the completed tasks, clear, list. *)
Example scenario :
  let answers := mkAnswers "Buy milk" "" "2024-01-01" 2 in
  let T1 := newTask 1700000000000 "2024-01-01T09:00:00+00:00" answers in
  mainMenu sample_dayjs insertion_sort
    [ (act_add 1700000000000 "2024-01-01T09:00:00+00:00" answers, true);
      (act_list by_dueDate true, true);
      (act_complete "1700000000000", true);
      (act_list by_priority false, true);
      (act_clear true, true);
      (act_list by_dueDate true, true) ]
    (store_of []) =
  ([ Succeeded "Task added successfully!";
     Listed [T1];
     Succeeded "Task marked as completed!";
     Listed [];
     Succeeded "Cleared 1 task(s)!";
     Notice "No tasks found." ],
   store_of []).
Proof. reflexivity. Qed.

(** ** C1 *)

(** The write of [markComplete] is rejected: the flag is set in memory
    while the file still holds the task as last persisted. *)
Lemma failed_write_diverges :
  let db := store_of [milk] in
  let result := markComplete (id milk) false db in
  mem_tasks db = disk_tasks db
  ∧ fst result = Failed "Failed to update task: " WriteError
  ∧ mem_tasks (snd result) = Some [ticked milk]
  ∧ disk_tasks (snd result) = Some [milk]
  ∧ mem_tasks (snd result) ≠ disk_tasks (snd result).
Proof. cbn. split_and!; done. Qed.

Lemma failed_write_keeps_mutation_witness :
  dispatch sample_dayjs insertion_sort (act_complete (id milk)) false (store_of [milk]) =
    (Failed "Failed to update task: " WriteError,
     in_memory [ticked milk] (Some (mkData (Some [milk]))))
  ∧ file (in_memory [ticked milk] (Some (mkData (Some [milk])))) = Some (mkData (Some [milk]))
  ∧ mem_tasks (in_memory [ticked milk] (Some (mkData (Some [milk])))) =
      Some (mutated (act_complete (id milk)) [milk]).
Proof.
  split; [reflexivity|].
  apply (failed_write_keeps_mutation sample_dayjs insertion_sort
           (act_complete (id milk)) [milk] (Some (mkData (Some [milk])))
           "Failed to update task: ").
  reflexivity.
Defined.

(** ** C2 *)

(** C2. A title made of spaces passes the prompts of [updateTask] and the
    schema: the task is overwritten with it and the command reports
    success. The schema also accepts the priority 3/2. *)
Theorem updateTask_accepts_blank_title :
  let answers := mkAnswers "   " "" "2024-01-02" 2 in
  trim (a_title answers) = ""
  ∧ update_prompt_accepts sample_dayjs answers = true
  ∧ updateTask sample_dayjs (id milk) answers true (store_of [milk]) =
      (Succeeded "Task updated successfully!", store_of [merge_answers milk answers])
  ∧ title (merge_answers milk answers) = "   "
  ∧ taskSchema_issues sample_dayjs
      (mkTask "1700000000000" "Buy milk" "" "2024-01-02" "2024-01-01T09:00:00+00:00"
         (3 # 2) false) = [].
Proof. cbn zeta. split_and!; reflexivity. Qed.

(** ** C3 *)

(** On an empty collection no task carries any id; [removeTask] asks no
    question, prints its notice and returns: this is not a failure. *)
Lemma removeTask_empty_is_not_a_failure :
  find_by_id (id milk) [] = None
  ∧ removeTask (id milk) true true (store_of []) =
      (Notice "No tasks available to remove.", store_of [])
  ∧ ∀ prefix e,
      fst (removeTask (id milk) true true (store_of [])) ≠ Failed prefix e
      ∧ fst (removeTask (id milk) true true (store_of [])) ≠ Uncaught e.
Proof. split_and!; [reflexivity..|]. intros prefix e. split; intros [=]. Qed.

Lemma removeTask_prompted_witness :
  ([milk; taxes] = [] ∨ id milk ∈ id <$> [milk; taxes])
  ∧ is_Some (find_by_id (id milk) [milk; taxes])
  ∧ removeTask (id milk) true false (in_memory [milk; taxes] None) =
      (Failed "Failed to remove task: " WriteError, in_memory [taxes] None)
  ∧ find_by_id (id milk) (filter (λ t, id t ≠ id milk) [milk; taxes]) = None.
Proof.
  assert ([milk; taxes] = [] ∨ id milk ∈ id <$> [milk; taxes]) as Hoffered
    by (right; compute_done).
  assert (is_Some (find_by_id (id milk) [milk; taxes])) as Hfound
    by (by eexists).
  split; [exact Hoffered|]. split; [exact Hfound|].
  apply (removeTask_prompted (id milk) true false [milk; taxes] None Hoffered).
  exact Hfound.
Defined.

(** ** C4 *)

(** Two additions at the same clock reading: both succeed and the two
    tasks share their id. *)
Lemma add_same_clock_duplicates_id :
  let e := (1700000000000, "2024-01-01T09:00:00+00:00",
            mkAnswers "Buy milk" "" "2024-01-01" 2, true) in
  let result := mainMenu sample_dayjs insertion_sort (add_turn <$> [e; e]) (store_of []) in
  add_prompt_accepts sample_dayjs (mkAnswers "Buy milk" "" "2024-01-01" 2) = true
  ∧ fst result = [Succeeded "Task added successfully!"; Succeeded "Task added successfully!"]
  ∧ (id <$> default [] (mem_tasks (snd result))) = ["1700000000000"; "1700000000000"]
  ∧ ¬ NoDup (id <$> default [] (mem_tasks (snd result))).
Proof.
  cbn zeta. split_and!; [reflexivity..|].
  intros Hnodup. vm_compute in Hnodup.
  apply NoDup_cons in Hnodup as [Hnotin _]. apply Hnotin. left.
Qed.

Lemma adds_keep_ids_distinct_witness :
  let entries :=
    [ (1700000000005, "2024-01-01T09:00:00+00:00", mkAnswers "Iron" "" "2024-01-01" 1, true);
      (1700000000006, "2024-01-01T09:30:00+00:00", mkAnswers "Sweep" "" "2024-01-02" 3, false) ] in
  (NoDup (id <$> [milk; taxes]) ∧ NoDup (clock <$> entries)
   ∧ ∀ e, e ∈ entries → pretty (clock e) ∉ id <$> [milk; taxes])
  ∧ ∃ ts', mem_tasks (snd (mainMenu sample_dayjs insertion_sort (add_turn <$> entries)
                             (in_memory [milk; taxes] None))) = Some ts'
      ∧ NoDup (id <$> ts').
Proof.
  cbn zeta.
  assert (NoDup (id <$> [milk; taxes])) as H1 by compute_done.
  assert (NoDup (clock <$>
            [ (1700000000005, "2024-01-01T09:00:00+00:00", mkAnswers "Iron" "" "2024-01-01" 1, true);
              (1700000000006, "2024-01-01T09:30:00+00:00", mkAnswers "Sweep" "" "2024-01-02" 3, false) ]))
    as H2 by compute_done.
  assert (∀ e, e ∈
            [ (1700000000005, "2024-01-01T09:00:00+00:00", mkAnswers "Iron" "" "2024-01-01" 1, true);
              (1700000000006, "2024-01-01T09:30:00+00:00", mkAnswers "Sweep" "" "2024-01-02" 3, false) ] →
            pretty (clock e) ∉ id <$> [milk; taxes]) as H3.
  { intros e He. repeat (apply elem_of_cons in He as [->|He]); [compute_done..|].
    by apply not_elem_of_nil in He. }
  split; [done|].
  exact (adds_keep_ids_distinct sample_dayjs insertion_sort _ _ None H1 H2 H3).
Defined.

(** ** C5 *)

Lemma listTasks_by_date_stable_witness :
  let ts := [taxes; milk; laundry] in
  (date_key by_dueDate
   ∧ Forall (λ t, is_Some (sample_dayjs (date_of by_dueDate t))) ts)
  ∧ listTasks sample_dayjs insertion_sort by_dueDate true (in_memory ts None) =
      (Listed [milk; laundry; taxes], in_memory ts None)
  ∧ filter (λ t, sample_dayjs (date_of by_dueDate t) = Some 1704153600000)
      (tasksToDisplay sample_dayjs insertion_sort by_dueDate true ts) =
    filter (λ t, sample_dayjs (date_of by_dueDate t) = Some 1704153600000) ts.
Proof.
  cbn zeta.
  assert (date_key by_dueDate) as Hkey by (by left).
  assert (Forall (λ t, is_Some (sample_dayjs (date_of by_dueDate t)))
            [taxes; milk; laundry]) as Hvalid.
  { repeat constructor; by eexists. }
  split; [done|]. split; [reflexivity|].
  apply (listTasks_by_date_stable sample_dayjs insertion_sort
           (@insertion_sort_stable_sort_of Task) by_dueDate true
           [taxes; milk; laundry] None Hkey Hvalid).
Defined.

(** ** C6 *)

(** The second [markComplete] of the same task does not succeed: no task
    is incomplete any more and the command returns with the notice it also
    gives on an empty collection, where the id does not exist at all. *)
Lemma markComplete_twice_gated :
  mainMenu sample_dayjs insertion_sort
    [(act_complete (id milk), true); (act_complete (id milk), true)] (store_of [milk]) =
    ([Succeeded "Task marked as completed!"; Notice "No incomplete tasks available."],
     store_of [ticked milk])
  ∧ find_by_id (id milk) [ticked milk] = Some (ticked milk)
  ∧ markComplete (id milk) true (store_of [ticked milk]) =
      (Notice "No incomplete tasks available.", store_of [ticked milk])
  ∧ find_by_id (id milk) [] = None
  ∧ markComplete (id milk) true (store_of []) =
      (Notice "No incomplete tasks available.", store_of []).
Proof. split_and!; reflexivity. Qed.

Lemma markComplete_prompted_witness :
  (filter (λ t, completed t = false) [laundry; milk] = []
   ∨ id milk ∈ id <$> filter (λ t, completed t = false) [laundry; milk])
  ∧ filter (λ t, completed t = false) [laundry; milk] ≠ []
  ∧ ∃ i t, [laundry; milk] !! i = Some t ∧ id t = id milk
      ∧ (∀ j u, [laundry; milk] !! j = Some u → (j < i)%nat → id u ≠ id milk)
      ∧ <[i:=set_completed t]> [laundry; milk] !! i = Some (set_completed t)
      ∧ completed (set_completed t) = true
      ∧ (∀ j, j ≠ i → <[i:=set_completed t]> [laundry; milk] !! j = [laundry; milk] !! j)
      ∧ markComplete (id milk) false (in_memory [laundry; milk] None) =
          (Failed "Failed to update task: " WriteError,
           in_memory (<[i:=set_completed t]> [laundry; milk]) None).
Proof.
  assert (filter (λ t, completed t = false) [laundry; milk] = []
          ∨ id milk ∈ id <$> filter (λ t, completed t = false) [laundry; milk])
    as Hoffered by (right; compute_done).
  assert (filter (λ t, completed t = false) [laundry; milk] ≠ []) as Hsome
    by (intros Hnil; discriminate Hnil).
  split; [exact Hoffered|]. split; [exact Hsome|].
  apply (markComplete_prompted (id milk) false [laundry; milk] None Hoffered).
  exact Hsome.
Defined.

(** ** C7 *)

Lemma updateTask_keeps_id_createdAt_witness :
  let answers := mkAnswers "Buy oat milk" "2 l" "2024-03-15" 1 in
  let ts := [taxes; milk] in
  updateTask sample_dayjs (id milk) answers true (in_memory ts None) =
    (Succeeded "Task updated successfully!", store_of [taxes; merge_answers milk answers])
  ∧ ∃ ts', store_of [taxes; merge_answers milk answers] = store_of ts'
      ∧ id <$> ts' = id <$> ts
      ∧ createdAt <$> ts' = createdAt <$> ts
      ∧ completed <$> ts' = completed <$> ts
      ∧ ∃ i old new, ts !! i = Some old ∧ ts' !! i = Some new ∧ id old = id milk
          ∧ id new = id old ∧ createdAt new = createdAt old
          ∧ title new = a_title answers ∧ description new = a_description answers
          ∧ dueDate new = a_dueDate answers ∧ priority new = a_priority answers
          ∧ ∀ j, j ≠ i → ts' !! j = ts !! j.
Proof.
  cbn zeta. split; [reflexivity|].
  apply (updateTask_keeps_id_createdAt sample_dayjs (id milk)
           (mkAnswers "Buy oat milk" "2 l" "2024-03-15" 1) true [taxes; milk] None
           "Task updated successfully!").
  reflexivity.
Defined.

(** ** C9 *)

(** A persisted document without a [tasks] field: [initializeDB] returns
    normally, the collection is undefined, and the next [listTasks] throws. *)
Lemma initializeDB_keeps_missing_tasks :
  let db := snd (initializeDB true (mkLow None (Some (mkData None)))) in
  fst (initializeDB true (mkLow None (Some (mkData None)))) = Normal ()
  ∧ mem_tasks db = None
  ∧ mem_tasks db ≠ Some []
  ∧ fst (listTasks sample_dayjs insertion_sort by_dueDate true db) = Uncaught TypeError.
Proof. cbn. split_and!; done. Qed.

(** * Further properties of the commands *)

Section Frames.

Variable dayjs : string → option Z.
Variable Array_sort : (Task → Task → Q) → list Task → list Task.

(** ** What a command leaves alone *)

(** X1. [listTasks] is read-only: whatever the store holds, also when
    [db.data] or its [tasks] is missing, the store after the command is
    the store before it. *)
Theorem listTasks_reads_only sortBy showCompleted db :
  snd (listTasks dayjs Array_sort sortBy showCompleted db) = db.
Proof.
  unfold listTasks, with_tasks, get_tasks.
  destruct (data db) as [[[ts|]]|]; [|done..].
  by destruct ts.
Qed.

(** X2. Declining the confirmation of [removeTask] or [clearCompleted]
    leaves the store untouched, whatever it holds, and the command reports
    neither a success nor a failure. *)
Theorem declined_confirmation_changes_nothing taskId ok db :
  let removal := removeTask taskId false ok db in
  let clearing := clearCompleted false ok db in
  snd removal = db ∧ snd clearing = db
  ∧ (∀ msg, fst removal ≠ Succeeded msg ∧ fst clearing ≠ Succeeded msg)
  ∧ (∀ prefix e, fst removal ≠ Failed prefix e ∧ fst clearing ≠ Failed prefix e).
Proof.
  unfold removeTask, clearCompleted, with_tasks, get_tasks.
  destruct (data db) as [[[ts|]]|]; cbn -[filter]; [|done..].
  destruct ts as [|t0 ts0]; [done|].
  destruct (filter (λ t, completed t = true) (t0 :: ts0)); done.
Qed.

(** X3. [markComplete] touches nothing but the [completed] flag: whatever
    its outcome, the collection keeps its length, every task keeps its
    other six fields at its index, a flag that was set stays set, and a
    task with another id is the task stored before. *)
Theorem markComplete_only_sets_flag taskId ok ts f :
  ∃ ts', mem_tasks (snd (markComplete taskId ok (in_memory ts f))) = Some ts'
    ∧ length ts' = length ts
    ∧ ∀ j t, ts !! j = Some t →
        ∃ t', ts' !! j = Some t'
          ∧ id t' = id t ∧ title t' = title t ∧ description t' = description t
          ∧ dueDate t' = dueDate t ∧ createdAt t' = createdAt t
          ∧ priority t' = priority t
          ∧ (completed t = true → completed t' = true)
          ∧ (id t ≠ taskId → t' = t).
Proof.
  assert (∀ j t, ts !! j = Some t →
            ∃ t', ts !! j = Some t'
              ∧ id t' = id t ∧ title t' = title t ∧ description t' = description t
              ∧ dueDate t' = dueDate t ∧ createdAt t' = createdAt t
              ∧ priority t' = priority t
              ∧ (completed t = true → completed t' = true)
              ∧ (id t ≠ taskId → t' = t)) as Hsame.
  { intros j t Hj. exists t. split_and!; done. }
  rewrite markComplete_eq.
  destruct (filter _ ts); [by exists ts|].
  destruct (list_find _ ts) as [[i old]|] eqn:Hfind; [|by exists ts].
  apply list_find_Some in Hfind as (Hi & Hid & _).
  exists (<[i:=set_completed old]> ts).
  split; [by destruct ok|]. split; [by rewrite length_insert|].
  intros j u Hj. destruct (decide (j = i)) as [->|Hne].
  - assert (u = old) as -> by congruence.
    exists (set_completed old). split.
    { apply list_lookup_insert_eq. by eapply lookup_lt_Some. }
    split_and!; done.
  - exists u. rewrite list_lookup_insert_ne by done. split_and!; done.
Qed.

(** X4. On a store whose [tasks] array exists, the only exception that
    leaves a command is the [TypeError] of [updateTask] asked for an id no
    task carries; the store is then unchanged. *)
Theorem uncaught_only_from_unknown_update action ok ts f e :
  fst (dispatch dayjs Array_sort action ok (in_memory ts f)) = Uncaught e →
  e = TypeError ∧ ts ≠ []
  ∧ snd (dispatch dayjs Array_sort action ok (in_memory ts f)) = in_memory ts f
  ∧ ∃ taskId answers, action = act_update taskId answers ∧ find_by_id taskId ts = None.
Proof.
  destruct action as [now stamp answers|sortBy showCompleted|taskId answers
                     |taskId|taskId confirm|confirm]; cbn [dispatch].
  - rewrite addTask_eq; cbn zeta.
    destruct (taskSchema_issues dayjs _); [destruct ok|]; intros [=].
  - rewrite listTasks_eq. destruct ts; intros [=].
  - rewrite updateTask_eq. destruct ts as [|t0 ts0]; [intros [=]|].
    destruct (list_find _ (t0 :: ts0)) as [[i old]|] eqn:Hfind; cbn zeta.
    + destruct (taskSchema_issues dayjs _); [destruct ok|]; intros [=].
    + intros [= <-]. split_and!; try done. exists taskId, answers.
      split; [done|]. unfold find_by_id. by rewrite Hfind.
  - rewrite markComplete_eq. destruct (filter _ ts); [intros [=]|].
    destruct (list_find _ ts) as [[i old]|]; [destruct ok|]; intros [=].
  - rewrite removeTask_eq. destruct ts as [|t0 ts0]; [intros [=]|].
    destruct confirm; [destruct ok|]; intros [=].
  - rewrite clearCompleted_eq.
    destruct (filter (λ t, completed t = true) ts); [intros [=]|].
    destruct confirm; [destruct ok|]; intros [=].
Qed.

(** ** Validation *)

Lemma trim_nonempty s : trim s ≠ "" → s ≠ "".
Proof. intros Htrim ->. by apply Htrim. Qed.

Lemma invalid_fields_issues t :
  title t = "" ∨ dayjs (dueDate t) = None ∨ (priority t < 1)%Q ∨ (3 < priority t)%Q →
  taskSchema_issues dayjs t ≠ [].
Proof.
  intros Hbad Hnil. apply taskSchema_accepts in Hnil as (Htitle & [x Hdate] & Hlo & Hhi).
  destruct Hbad as [?|[?|[?|?]]]; [done|congruence|lra..].
Qed.

(** X5. A task with an empty title, a due date dayjs holds invalid, or a
    priority below 1 or above 3 is refused by [addTask] and, for a stored
    id, by [updateTask]: the command fails with the schema's issues and the
    store, in memory and on disk, is the store before the command. *)
Theorem invalid_fields_rejected now stamp answers taskId ok ts f :
  a_title answers = "" ∨ dayjs (a_dueDate answers) = None
    ∨ (a_priority answers < 1)%Q ∨ (3 < a_priority answers)%Q →
  (∃ issues, issues ≠ []
     ∧ addTask dayjs now stamp answers ok (in_memory ts f) =
         (Failed "Failed to add task: " (ZodError issues), in_memory ts f))
  ∧ (∀ old, find_by_id taskId ts = Some old →
       ∃ issues, issues ≠ []
         ∧ updateTask dayjs taskId answers ok (in_memory ts f) =
             (Failed "Failed to update task: " (ZodError issues), in_memory ts f)).
Proof.
  intros Hbad. split.
  - exists (taskSchema_issues dayjs (newTask now stamp answers)).
    assert (taskSchema_issues dayjs (newTask now stamp answers) ≠ []) as Hissues
      by (by apply invalid_fields_issues).
    split; [done|]. by apply addTask_rejected.
  - intros old Hfind. unfold find_by_id in Hfind.
    apply fmap_Some in Hfind as ([i old'] & Hfind & ->). cbn.
    exists (taskSchema_issues dayjs (merge_answers old' answers)).
    assert (taskSchema_issues dayjs (merge_answers old' answers) ≠ []) as Hissues
      by (by apply invalid_fields_issues).
    split; [done|]. by apply updateTask_rejected with i.
Qed.

Lemma add_prompt_issues now stamp answers :
  add_prompt_accepts dayjs answers = true →
  taskSchema_issues dayjs (newTask now stamp answers) = [].
Proof.
  intros Hprompt.
  apply andb_true_iff in Hprompt as [Hprompt Hprio].
  apply andb_true_iff in Hprompt as [Htitle Hdate].
  apply priority_choice_in_range in Hprio as [Hlo Hhi].
  apply bool_decide_eq_true in Htitle. apply trim_nonempty in Htitle.
  unfold isValid in Hdate. apply bool_decide_eq_true in Hdate.
  by apply taskSchema_accepts.
Qed.

(** X6. Answers that went through the prompts of [addTask] always pass
    the schema: the command appends the task, and fails only if the write
    does. *)
Theorem prompted_add_passes_schema now stamp answers ok ts f :
  add_prompt_accepts dayjs answers = true →
  addTask dayjs now stamp answers ok (in_memory ts f) =
    if ok
    then (Succeeded "Task added successfully!", store_of (ts ++ [newTask now stamp answers]))
    else (Failed "Failed to add task: " WriteError,
          in_memory (ts ++ [newTask now stamp answers]) f).
Proof.
  intros Hprompt. rewrite addTask_eq. cbn zeta.
  by rewrite (add_prompt_issues now stamp answers Hprompt).
Qed.

(** ** Look-ups after a change *)

Lemma list_find_id_cons x t0 (ts0 : list Task) :
  list_find (λ t, id t = x) (t0 :: ts0) =
    if decide (id t0 = x) then Some (0%nat, t0)
    else prod_map S Datatypes.id <$> list_find (λ t, id t = x) ts0.
Proof. reflexivity. Qed.

(** Replacing a task by one with the same id does not move what [find]
    and [findIndex] see. *)
Lemma list_find_insert_same_id x i old new (ts : list Task) :
  ts !! i = Some old → id new = id old →
  list_find (λ t, id t = x) (<[i:=new]> ts) =
    (λ p, (p.1, if decide (p.1 = i) then new else p.2))
      <$> list_find (λ t, id t = x) ts.
Proof.
  revert i. induction ts as [|t0 ts0 IH]; intros i Hi Hid; [done|].
  destruct i as [|i]; cbn in Hi.
  - injection Hi as ->. change (<[0%nat:=new]> (old :: ts0)) with (new :: ts0).
    rewrite !list_find_id_cons, Hid.
    destruct (decide (id old = x)); [done|].
    destruct (list_find _ ts0) as [[k u]|]; done.
  - change (<[S i:=new]> (t0 :: ts0)) with (t0 :: <[i:=new]> ts0).
    rewrite !list_find_id_cons.
    destruct (decide (id t0 = x)); [done|].
    rewrite (IH i Hi Hid).
    destruct (list_find _ ts0) as [[k u]|]; [|done]. cbn.
    destruct (decide (k = i)), (decide (S k = S i)); (done || lia).
Qed.

(** X7. After a successful [updateTask], [find] by the id returns the
    task as updated, and [find] by any other id returns what it returned
    before. *)
Theorem updateTask_then_find taskId answers ok ts f msg db' :
  updateTask dayjs taskId answers ok (in_memory ts f) = (Succeeded msg, db') →
  ∃ old ts', find_by_id taskId ts = Some old
    ∧ mem_tasks db' = Some ts'
    ∧ find_by_id taskId ts' = Some (merge_answers old answers)
    ∧ ∀ other, other ≠ taskId → find_by_id other ts' = find_by_id other ts.
Proof.
  rewrite updateTask_eq. destruct ts as [|t0 ts0]; [intros [=]|].
  destruct (list_find _ (t0 :: ts0)) as [[i old]|] eqn:Hfind; [|intros [=]].
  cbn zeta. destruct (taskSchema_issues dayjs _); [|intros [=]].
  destruct ok; intros [= <- <-].
  pose proof Hfind as Hfound. apply list_find_Some in Hfound as (Hi & Hid & _).
  exists old, (<[i:=merge_answers old answers]> (t0 :: ts0)).
  split; [unfold find_by_id; by rewrite Hfind|]. split; [done|].
  unfold find_by_id. split.
  - rewrite (list_find_insert_same_id taskId i old) by done.
    rewrite Hfind. cbn. by rewrite decide_True.
  - intros other Hother.
    rewrite (list_find_insert_same_id other i old) by done.
    destruct (list_find (λ t, id t = other) (t0 :: ts0)) as [[k u]|] eqn:Hk; [|done].
    cbn. destruct (decide (k = i)) as [->|]; [|done].
    apply list_find_Some in Hk as (Hk & Hu & _). congruence.
Qed.

(** ** Commands in sequence *)

(** X8. With pairwise distinct ids, completing a task and then clearing
    the completed tasks removes it: [find] by its id finds nothing, and the
    collection is exactly the incomplete tasks of other ids. *)
Theorem complete_then_clear_removes taskId ok1 ok2 ts f msg db1 :
  NoDup (id <$> ts) →
  markComplete taskId ok1 (in_memory ts f) = (Succeeded msg, db1) →
  ∃ ts2, mem_tasks (snd (clearCompleted true ok2 db1)) = Some ts2
    ∧ find_by_id taskId ts2 = None
    ∧ ∀ t, t ∈ ts2 ↔ t ∈ ts ∧ completed t = false ∧ id t ≠ taskId.
Proof.
  intros Hnodup. rewrite markComplete_eq.
  destruct (filter _ ts) as [|inc0 incs]; [intros [=]|].
  destruct (list_find _ ts) as [[i old]|] eqn:Hfind; [|intros [=]].
  destruct ok1; intros [= <- <-].
  apply list_find_Some in Hfind as (Hi & Hid & _).
  set (ts1 := <[i:=set_completed old]> ts).
  assert (∀ t, t ∈ filter (λ t, completed t = false) ts1
               ↔ t ∈ ts ∧ completed t = false ∧ id t ≠ taskId) as Hmem.
  { intros t. rewrite list_elem_of_filter. split.
    - intros [Hc Ht]. apply list_elem_of_lookup in Ht as [j Hj].
      destruct (decide (j = i)) as [->|Hne].
      + unfold ts1 in Hj. rewrite list_lookup_insert_eq in Hj
          by (by eapply lookup_lt_Some).
        injection Hj as <-. done.
      + unfold ts1 in Hj. rewrite list_lookup_insert_ne in Hj by done.
        split_and!; [by eapply list_elem_of_lookup_2|done|].
        intros Hsame. apply Hne.
        apply (NoDup_lookup (id <$> ts) j i taskId Hnodup);
          rewrite list_lookup_fmap; [by rewrite Hj; cbn; f_equal
                                    |by rewrite Hi; cbn; f_equal].
    - intros (Ht & Hc & Hne). split; [done|].
      apply list_elem_of_lookup in Ht as [j Hj].
      apply list_elem_of_lookup. exists j. unfold ts1.
      rewrite list_lookup_insert_ne; [done|]. intros <-. congruence. }
  exists (filter (λ t, completed t = false) ts1). split.
  - unfold store_of. rewrite clearCompleted_eq.
    destruct (filter (λ t, completed t = true) ts1) eqn:Hdone.
    + cbn. f_equal. symmetry. apply filter_all.
      apply filter_nil_Forall in Hdone.
      eapply Forall_impl; [exact Hdone|]. cbn. intros u. by destruct (completed u).
    + by destruct ok2.
  - split; [|done]. apply find_by_id_None, Forall_forall.
    intros t Ht. by apply Hmem in Ht as (_ & _ & ?).
Qed.

(** X9. Adding a task under a fresh id and then removing that id gives
    back the collection as it was, in memory and on disk. *)
Theorem add_then_remove_restores now stamp answers ts :
  pretty now ∉ id <$> ts →
  taskSchema_issues dayjs (newTask now stamp answers) = [] →
  mainMenu dayjs Array_sort
    [(act_add now stamp answers, true); (act_remove (pretty now) true, true)]
    (store_of ts) =
  ([Succeeded "Task added successfully!"; Succeeded "Task removed successfully!"],
   store_of ts).
Proof.
  intros Hfresh Hvalid. cbn [mainMenu dispatch]. unfold store_of at 1.
  rewrite addTask_eq. cbn zeta. rewrite Hvalid. unfold store_of at 1.
  rewrite removeTask_eq.
  assert (filter (λ t, id t ≠ pretty now) (ts ++ [newTask now stamp answers]) = ts) as ->.
  { rewrite filter_app, filter_all.
    - rewrite filter_cons_False, filter_nil by (cbn; auto). apply app_nil_r.
    - apply Forall_forall. intros t Ht Hid. apply Hfresh.
      rewrite <- Hid. by apply list_elem_of_fmap_2. }
  by destruct ts.
Qed.

(** X10. Only [addTask] can bring a duplicate id: after any other command
    the ids of a collection whose ids were pairwise distinct are pairwise
    distinct. *)
Theorem only_add_can_duplicate_ids action ok ts f :
  (∀ now stamp answers, action ≠ act_add now stamp answers) →
  NoDup (id <$> ts) →
  ∃ ts', mem_tasks (snd (dispatch dayjs Array_sort action ok (in_memory ts f))) = Some ts'
    ∧ NoDup (id <$> ts').
Proof.
  intros Hnotadd Hnodup.
  assert (∀ P `{!∀ t, Decision (P t)}, NoDup (id <$> filter P ts)) as Hfilter.
  { intros P ?. eapply sublist_NoDup; [exact Hnodup|].
    apply fmap_sublist, sublist_filter. }
  destruct action as [now stamp answers|sortBy showCompleted|taskId answers
                     |taskId|taskId confirm|confirm]; cbn [dispatch].
  - by destruct (Hnotadd now stamp answers).
  - rewrite listTasks_eq. exists ts. by destruct ts.
  - rewrite updateTask_eq. destruct ts as [|t0 ts0]; [by eexists|].
    destruct (list_find _ (t0 :: ts0)) as [[i old]|] eqn:Hfind; [|by eexists].
    apply list_find_Some in Hfind as (Hi & Hid & _). cbn zeta.
    destruct (taskSchema_issues dayjs _); [|by eexists].
    destruct ok; (eexists; split; [done|]);
      by rewrite (fmap_insert_same id _ i old).
  - rewrite markComplete_eq. destruct (filter _ ts); [by eexists|].
    destruct (list_find _ ts) as [[i old]|] eqn:Hfind; [|by eexists].
    apply list_find_Some in Hfind as (Hi & Hid & _).
    destruct ok; (eexists; split; [done|]);
      by rewrite (fmap_insert_same id _ i old).
  - rewrite removeTask_eq. destruct ts as [|t0 ts0]; [by eexists|].
    destruct confirm; [destruct ok|]; eexists; (split; [done|]); auto.
  - rewrite clearCompleted_eq.
    destruct (filter (λ t, completed t = true) ts); [by eexists|].
    destruct confirm; [destruct ok|]; eexists; (split; [done|]); auto.
Qed.

(** X11. Clearing is idempotent: after a confirmed [clearCompleted],
    whatever the fate of its write, a second one finds nothing to clear,
    returns with the notice and leaves the store as it is. *)
Theorem clearCompleted_twice ok1 ok2 confirm2 ts f :
  let db1 := snd (clearCompleted true ok1 (in_memory ts f)) in
  clearCompleted confirm2 ok2 db1 = (Notice "No completed tasks to clear.", db1).
Proof.
  cbn zeta. rewrite clearCompleted_eq.
  assert (∀ l : list Task, Forall (λ t, completed t = false) l →
            filter (λ t, completed t = true) l = []) as Hnone.
  { intros l Hl. apply filter_none. eapply Forall_impl; [exact Hl|].
    cbn. intros t ->. done. }
  assert (Forall (λ t, completed t = false) (filter (λ t, completed t = false) ts))
    as Hkept.
  { apply Forall_forall. intros t Ht. by apply list_elem_of_filter in Ht as [? _]. }
  destruct (filter (λ t, completed t = true) ts) eqn:Hdone.
  - cbn [snd]. by rewrite clearCompleted_eq, Hdone.
  - destruct ok1; cbn [snd]; unfold store_of;
      by rewrite clearCompleted_eq, (Hnone _ Hkept).
Qed.

End Frames.

(** * Sessions *)

Section Sessions.

Variable dayjs : string → option Z.
Variable Array_sort : (Task → Task → Q) → list Task → list Task.

Local Abbreviation dispatch' := (dispatch dayjs Array_sort).
Local Abbreviation mainMenu' := (mainMenu dayjs Array_sort).

(** One turn of the menu, then the rest of the script unless an exception
    left the command. *)
Lemma mainMenu_cons action ok rest db :
  mainMenu' ((action, ok) :: rest) db =
    match fst (dispatch' action ok db) with
    | Uncaught e => ([Uncaught e], snd (dispatch' action ok db))
    | outcome =>
        (outcome :: fst (mainMenu' rest (snd (dispatch' action ok db))),
         snd (mainMenu' rest (snd (dispatch' action ok db))))
    end.
Proof.
  cbn [mainMenu]. destruct (dispatch' action ok db) as [outcome db1].
  cbn [fst snd]. destruct (mainMenu' rest db1) as [outcomes db2].
  by destruct outcome.
Qed.

(** What a turn does to a store whose [tasks] array exists: nothing, or
    the command's change with the file following it or staying behind,
    according to the fate of the write. *)
Lemma dispatch_step action ok ts f :
  let result := dispatch' action ok (in_memory ts f) in
  snd result = in_memory ts f ∧ (∀ msg, fst result ≠ Succeeded msg)
  ∨ (ok = true ∧ snd result = store_of (mutated action ts)
     ∧ ∃ msg, fst result = Succeeded msg)
  ∨ (ok = false ∧ snd result = in_memory (mutated action ts) f
     ∧ ∃ prefix, fst result = Failed prefix WriteError).
Proof.
  destruct action as [now stamp answers|sortBy showCompleted|taskId answers
                     |taskId|taskId confirm|confirm]; cbn [dispatch mutated].
  - rewrite addTask_eq; cbn zeta.
    destruct (taskSchema_issues dayjs _); [destruct ok|]; cbn; eauto 6.
  - rewrite listTasks_eq. destruct ts; cbn; eauto.
  - rewrite updateTask_eq. destruct ts as [|t0 ts0]; [cbn; eauto|].
    destruct (list_find _ (t0 :: ts0)) as [[i old]|]; [|cbn; eauto]. cbn zeta.
    destruct (taskSchema_issues dayjs _); [destruct ok|]; cbn; eauto 6.
  - rewrite markComplete_eq. destruct (filter _ ts); [cbn; eauto|].
    destruct (list_find _ ts) as [[i old]|]; [destruct ok|]; cbn; eauto 6.
  - rewrite removeTask_eq. destruct ts as [|t0 ts0]; [cbn; eauto|].
    destruct confirm; [destruct ok|]; cbn; eauto 6.
  - rewrite clearCompleted_eq.
    destruct (filter (λ t, completed t = true) ts); [cbn; eauto|].
    destruct confirm; [destruct ok|]; cbn; eauto 6.
Qed.

Lemma dispatch_in_memory action ok ts f :
  ∃ ts' f', snd (dispatch' action ok (in_memory ts f)) = in_memory ts' f'.
Proof.
  destruct (dispatch_step action ok ts f) as [[-> _]|[(_ & -> & _)|(_ & -> & _)]];
    by eexists _, _.
Qed.

(** A turn keeps the tasks valid for the schema. *)
Lemma dispatch_keeps_valid action ok ts f ts' :
  all_valid dayjs ts →
  mem_tasks (snd (dispatch' action ok (in_memory ts f))) = Some ts' →
  all_valid dayjs ts'.
Proof.
  unfold all_valid. intros Hvalid.
  assert (∀ P `{!∀ t, Decision (P t)},
            Forall (λ t, taskSchema_issues dayjs t = []) (filter P ts)) as Hfilter.
  { intros P ?. apply Forall_forall. intros t Ht.
    apply list_elem_of_filter in Ht as [_ Ht].
    rewrite Forall_forall in Hvalid. by apply Hvalid. }
  destruct action as [now stamp answers|sortBy showCompleted|taskId answers
                     |taskId|taskId confirm|confirm]; cbn [dispatch].
  - rewrite addTask_eq; cbn zeta.
    destruct (taskSchema_issues dayjs _) eqn:Hissues;
      [destruct ok|]; intros [= <-]; try done;
      (apply Forall_app; split; [done|]; by apply Forall_singleton).
  - rewrite listTasks_eq. destruct ts; by intros [= <-].
  - rewrite updateTask_eq. destruct ts as [|t0 ts0]; [by intros [= <-]|].
    destruct (list_find _ (t0 :: ts0)) as [[i old]|]; [|by intros [= <-]].
    cbn zeta. destruct (taskSchema_issues dayjs _) eqn:Hissues;
      [destruct ok|]; intros [= <-]; try done; by apply Forall_insert.
  - rewrite markComplete_eq. destruct (filter _ ts); [by intros [= <-]|].
    destruct (list_find _ ts) as [[i old]|] eqn:Hfind; [|by intros [= <-]].
    apply list_find_Some in Hfind as (Hi & _).
    assert (taskSchema_issues dayjs (set_completed old) = []) as Hold.
    { change (taskSchema_issues dayjs old = []).
      apply (proj1 (Forall_forall _ _) Hvalid old).
      by eapply list_elem_of_lookup_2. }
    destruct ok; intros [= <-]; by apply Forall_insert.
  - rewrite removeTask_eq. destruct ts as [|t0 ts0]; [by intros [= <-]|].
    destruct confirm; [destruct ok|]; intros [= <-]; auto.
  - rewrite clearCompleted_eq.
    destruct (filter (λ t, completed t = true) ts); [by intros [= <-]|].
    destruct confirm; [destruct ok|]; intros [= <-]; auto.
Qed.

(** X12. The schema is an invariant of the store: over any session,
    whatever the answers and the fate of the writes, a collection whose
    tasks all pass [taskSchema] (non-empty title, valid due date, priority
    from 1 to 3) remains one. *)
Theorem session_keeps_valid script ts f :
  all_valid dayjs ts →
  ∃ ts', mem_tasks (snd (mainMenu' script (in_memory ts f))) = Some ts'
    ∧ all_valid dayjs ts'.
Proof.
  revert ts f. induction script as [|[action ok] rest IH]; intros ts f Hvalid.
  { by exists ts. }
  rewrite mainMenu_cons.
  destruct (dispatch_in_memory action ok ts f) as (ts1 & f1 & Hstep).
  assert (all_valid dayjs ts1) as Hvalid1.
  { apply (dispatch_keeps_valid action ok ts f); [done|]. by rewrite Hstep. }
  destruct (IH ts1 f1 Hvalid1) as (ts' & Hmem & Hvalid').
  rewrite Hstep.
  destruct (fst (dispatch' action ok (in_memory ts f))); cbn [snd]; eauto.
Qed.

(** X13. While every write succeeds, memory and file agree: a session
    started on a store that holds the same collection in memory and on
    disk ends on such a store. *)
Theorem session_in_sync script ts :
  Forall (λ turn, snd turn = true) script →
  ∃ ts', snd (mainMenu' script (store_of ts)) = store_of ts'.
Proof.
  revert ts. induction script as [|[action ok] rest IH]; intros ts Hok.
  { by exists ts. }
  apply Forall_cons in Hok as [Hok Hrest]. cbn in Hok. subst ok.
  rewrite mainMenu_cons.
  assert (∃ ts1, snd (dispatch' action true (store_of ts)) = store_of ts1)
    as [ts1 Hstep].
  { destruct (dispatch_step action true ts (Some (mkData (Some ts))))
      as [[Hsame _]|[(_ & Hdone & _)|(? & _)]]; [by exists ts|by eexists|done]. }
  rewrite Hstep. destruct (IH ts1 Hrest) as [ts' Hts'].
  destruct (fst (dispatch' action true _)); cbn [snd]; eauto.
Qed.

(** X14. What a command reported as done survives a restart: after a
    command that succeeded, [initializeDB] on a fresh [Low] instance over
    the file gives back the store as the command left it. *)
Theorem succeeded_survives_restart action ok ts f msg db' d0 ok0 :
  dispatch' action ok (in_memory ts f) = (Succeeded msg, db') →
  snd (initializeDB ok0 (mkLow d0 (file db'))) = db'
  ∧ mem_tasks db' = Some (mutated action ts).
Proof.
  intros Hrun.
  destruct (dispatch_step action ok ts f) as [[_ Hno]|[(_ & Hdb & _)|(_ & _ & [p Hp])]];
    rewrite Hrun in *; cbn [fst snd] in *.
  - by destruct (Hno msg).
  - subst db'. by destruct ok0.
  - done.
Qed.

Lemma prompted_turn action ok ts f :
  answered_by_prompts dayjs action ts →
  prompted_outcome (fst (dispatch' action ok (in_memory ts f))).
Proof.
  destruct action as [now stamp answers|sortBy showCompleted|taskId answers
                     |taskId|taskId confirm|confirm]; cbn [dispatch answered_by_prompts].
  - intros Hprompt. rewrite addTask_eq. cbn zeta.
    rewrite (add_prompt_issues dayjs now stamp answers Hprompt). by destruct ok.
  - intros _. rewrite listTasks_eq. by destruct ts.
  - intros Hprompt. rewrite updateTask_eq. destruct ts as [|t0 ts0]; [done|].
    destruct Hprompt as [?|[Hin Hprompt]]; [done|].
    apply list_elem_of_fmap in Hin as (t & -> & Ht).
    destruct (list_find_elem_of (λ u, id u = id t) _ t Ht eq_refl) as [[i old] ->].
    cbn zeta. apply andb_true_iff in Hprompt as [Hdate Hprio].
    apply priority_choice_in_range in Hprio as [Hlo Hhi].
    unfold isValid in Hdate. apply bool_decide_eq_true in Hdate.
    unfold taskSchema_issues, title_issues, dueDate_issues, priority_issues, isValid.
    cbn [merge_answers title dueDate priority].
    rewrite (bool_decide_eq_true_2 _ Hdate).
    apply Qle_bool_iff in Hlo, Hhi. rewrite Hlo, Hhi.
    destruct (a_title answers); cbn; [done|by destruct ok].
  - intros Hprompt. rewrite markComplete_eq.
    destruct (filter (λ t, completed t = false) ts) as [|inc0 incs] eqn:Hinc; [done|].
    destruct Hprompt as [?|Hin]; [done|].
    apply list_elem_of_fmap in Hin as (t & -> & Ht).
    assert (t ∈ ts) as Hts.
    { rewrite <- Hinc in Ht. by apply list_elem_of_filter in Ht as [_ ?]. }
    destruct (list_find_elem_of (λ u, id u = id t) _ t Hts eq_refl) as [[i old] ->].
    by destruct ok.
  - intros _. rewrite removeTask_eq. destruct ts as [|t0 ts0]; [done|].
    by destruct confirm, ok.
  - intros _. rewrite clearCompleted_eq.
    destruct (filter (λ t, completed t = true) ts); [done|].
    by destruct confirm, ok.
Qed.

(** X15. In the menu loop, on a store whose [tasks] array exists, when
    every answer comes from the prompts every turn of the script is played:
    no exception leaves a command and no [TypeError] is shown; what the
    user sees at each turn is a notice, a success, the table, a write
    error, or the empty-title issue of the schema. *)
Theorem prompted_session_shows_no_TypeError script ts f :
  script_answered dayjs Array_sort script (in_memory ts f) →
  let outcomes := fst (mainMenu' script (in_memory ts f)) in
  length outcomes = length script ∧ Forall prompted_outcome outcomes.
Proof.
  revert ts f. induction script as [|[action ok] rest IH]; intros ts f Hscript.
  { by split. }
  destruct Hscript as [Hturn Hrest].
  pose proof (prompted_turn action ok ts f (Hturn ts eq_refl)) as Hout.
  destruct (dispatch_in_memory action ok ts f) as (ts1 & f1 & Hstep).
  rewrite Hstep in Hrest. destruct (IH ts1 f1 Hrest) as [Hlen Hall].
  cbn zeta. rewrite mainMenu_cons, Hstep.
  destruct (fst (dispatch' action ok (in_memory ts f))) eqn:Hfst;
    cbn [fst prompted_outcome] in *; try done;
    (split; [cbn; by rewrite Hlen|by constructor]).
Qed.

End Sessions.

(** * Listing by priority and by completion *)

Lemma negative_lt q : negative q = true ↔ (q < 0)%Q.
Proof.
  unfold negative. rewrite bool_decide_eq_true.
  destruct q as [n d]. unfold Qlt. cbn. lia.
Qed.

Lemma StronglySorted_weaken {A} (R R' : relation A) (l : list A) :
  (∀ a b, R a b → R' a b) → StronglySorted R l → StronglySorted R' l.
Proof.
  intros Himpl. induction 1 as [|a l _ IH Ha]; constructor; [done|].
  eapply Forall_impl; [exact Ha|]. apply Himpl.
Qed.

Section Listing.

Variable dayjs : string → option Z.
Variable Array_sort : (Task → Task → Q) → list Task → list Task.

Lemma compareFn_priority_precedes a b :
  precedes (compareFn dayjs by_priority) a b ↔ (priority a < priority b)%Q.
Proof. unfold precedes. cbn [compareFn]. rewrite negative_lt. lra. Qed.

Lemma compareFn_priority_swo l : strict_weak_on (compareFn dayjs by_priority) l.
Proof.
  split; unfold tied; intros *; rewrite ?compareFn_priority_precedes; lra.
Qed.

Lemma compareFn_completed_precedes a b :
  precedes (compareFn dayjs by_completed) a b ↔
    completed a = false ∧ completed b = true.
Proof.
  unfold precedes. cbn [compareFn].
  destruct (completed a), (completed b); vm_compute; intuition congruence.
Qed.

Lemma compareFn_completed_swo l : strict_weak_on (compareFn dayjs by_completed) l.
Proof.
  split.
  - intros a _. rewrite compareFn_completed_precedes. intuition congruence.
  - intros a b c _ _ _. rewrite !compareFn_completed_precedes. intuition congruence.
  - intros a b c _ _ _. unfold tied. rewrite !compareFn_completed_precedes.
    destruct (completed a), (completed b), (completed c); intuition congruence.
Qed.

(** Whatever the key, the compare function gives a strict weak order on
    tasks whose dates are valid. *)
Lemma compareFn_swo sortBy l :
  (date_key sortBy → Forall (λ t, is_Some (dayjs (date_of sortBy t))) l) →
  strict_weak_on (compareFn dayjs sortBy) l.
Proof.
  intros Hvalid. destruct sortBy.
  - apply compareFn_date_swo; [by left|]. apply Hvalid. by left.
  - apply compareFn_priority_swo.
  - apply compareFn_completed_swo.
  - apply compareFn_date_swo; [by right|]. apply Hvalid. by right.
Qed.

(** A list in which no incomplete task follows a completed one is its
    incomplete tasks followed by its completed tasks. *)
Lemma incomplete_then_completed (l : list Task) :
  StronglySorted (λ a b, completed a = true → completed b = true) l →
  l = filter (λ t, completed t = false) l ++ filter (λ t, completed t = true) l.
Proof.
  induction 1 as [|a l _ IH Ha]; [done|].
  destruct (completed a) eqn:Hc.
  - rewrite (filter_cons_False (λ t, completed t = false)) by congruence.
    rewrite (filter_cons_True (λ t, completed t = true)) by done.
    assert (Forall (λ t, completed t = true) l) as Hall.
    { eapply Forall_impl; [exact Ha|]. cbn. auto. }
    rewrite (filter_none (λ t, completed t = false)), (filter_all _ l Hall); [done|].
    eapply Forall_impl; [exact Hall|]. cbn. intros t ->. done.
  - rewrite (filter_cons_True (λ t, completed t = false)) by done.
    rewrite (filter_cons_False (λ t, completed t = true)) by congruence.
    cbn. by f_equal.
Qed.

(** The engine's sort is a stable sort for the test [comparefn(a, b) < 0]. *)
Hypothesis Array_sort_stable :
  ∀ cmp l, strict_weak_on cmp l → stable_sort_of cmp l (Array_sort cmp l).

(** X16. Sorted by priority, the table shows the tasks in non-decreasing
    order of priority (1 before 2 before 3), and the tasks of one priority
    in the order they have in the collection. *)
Theorem listTasks_by_priority_stable (showCompleted : bool) ts :
  let shown := if showCompleted then ts else filter (λ t, completed t = false) ts in
  let rows := tasksToDisplay dayjs Array_sort by_priority showCompleted ts in
  rows ≡ₚ shown
  ∧ (∀ i j a b, (i < j)%nat → rows !! i = Some a → rows !! j = Some b →
       (priority a <= priority b)%Q)
  ∧ (∀ p, filter (λ t, Qeq_bool (priority t) p = true) rows =
          filter (λ t, Qeq_bool (priority t) p = true) shown).
Proof.
  intros shown rows.
  destruct (Array_sort_stable (compareFn dayjs by_priority) shown
              (compareFn_priority_swo shown)) as [Hperm Hsorted Hstable].
  change (Array_sort (compareFn dayjs by_priority) shown) with rows
    in Hperm, Hsorted, Hstable.
  assert (∀ w t, tied (compareFn dayjs by_priority) w t ↔
                 Qeq_bool (priority t) (priority w) = true) as Htied.
  { intros w t. unfold tied. rewrite !compareFn_priority_precedes, Qeq_bool_iff.
    split; [intros [? ?]; lra|intros ->; lra]. }
  split; [done|]. split.
  - intros i j a b Hij Hi Hj.
    pose proof (StronglySorted_lookup_lt _ _ i j a b Hsorted Hij Hi Hj) as Hab.
    cbn in Hab. rewrite compareFn_priority_precedes in Hab. lra.
  - intros p.
    destruct (filter (λ t, Qeq_bool (priority t) p = true) shown) as [|w rest] eqn:Hclass.
    + apply filter_none, Forall_forall. intros t Ht.
      apply filter_nil_Forall in Hclass. rewrite Forall_forall in Hclass.
      apply Hclass. by rewrite <- Hperm.
    + assert (w ∈ shown ∧ Qeq_bool (priority w) p = true) as [Hw Hwp].
      { assert (w ∈ filter (λ t, Qeq_bool (priority t) p = true) shown) as Hin
          by (rewrite Hclass; left).
        by apply list_elem_of_filter in Hin as [? ?]. }
      rewrite <- Hclass. apply Qeq_bool_iff in Hwp.
      assert (∀ t, Qeq_bool (priority t) p = true ↔
                   tied (compareFn dayjs by_priority) w t) as Hagree.
      { intros t. rewrite Htied, !Qeq_bool_iff. by rewrite Hwp. }
      rewrite (filter_agree _ (tied (compareFn dayjs by_priority) w) rows)
        by (intros; apply Hagree).
      rewrite (filter_agree _ (tied (compareFn dayjs by_priority) w) shown)
        by (intros; apply Hagree).
      by apply Hstable.
Qed.

(** X17. Sorted by completion status, the table is the incomplete tasks
    in the order of the collection, followed by the completed tasks in the
    order of the collection. *)
Theorem listTasks_by_completed_partitions (showCompleted : bool) ts :
  let shown := if showCompleted then ts else filter (λ t, completed t = false) ts in
  tasksToDisplay dayjs Array_sort by_completed showCompleted ts =
    filter (λ t, completed t = false) shown ++ filter (λ t, completed t = true) shown.
Proof.
  intros shown. unfold tasksToDisplay. fold shown.
  destruct (Array_sort_stable (compareFn dayjs by_completed) shown
              (compareFn_completed_swo shown)) as [Hperm Hsorted Hstable].
  set (rows := Array_sort (compareFn dayjs by_completed) shown) in *.
  assert (∀ c, filter (λ t, completed t = c) rows = filter (λ t, completed t = c) shown)
    as Hclass.
  { intros c.
    destruct (filter (λ t, completed t = c) shown) as [|w rest] eqn:Hc.
    - apply filter_none, Forall_forall. intros t Ht.
      apply filter_nil_Forall in Hc. rewrite Forall_forall in Hc.
      apply Hc. by rewrite <- Hperm.
    - assert (w ∈ shown ∧ completed w = c) as [Hw Hwc].
      { assert (w ∈ filter (λ t, completed t = c) shown) as Hin
          by (rewrite Hc; left).
        by apply list_elem_of_filter in Hin as [? ?]. }
      rewrite <- Hc.
      assert (∀ t, completed t = c ↔ tied (compareFn dayjs by_completed) w t)
        as Hagree.
      { intros t. unfold tied. rewrite !compareFn_completed_precedes. subst c.
        destruct (completed w), (completed t); intuition congruence. }
      rewrite (filter_agree _ (tied (compareFn dayjs by_completed) w) rows)
        by (intros; apply Hagree).
      rewrite (filter_agree _ (tied (compareFn dayjs by_completed) w) shown)
        by (intros; apply Hagree).
      by apply Hstable. }
  rewrite <- !Hclass. apply incomplete_then_completed.
  eapply StronglySorted_weaken; [|exact Hsorted]. cbn.
  intros a b Hab Ha. rewrite compareFn_completed_precedes in Hab.
  destruct (completed b); intuition congruence.
Qed.

(** X18. Whatever the sort key, the table shows exactly the tasks of the
    collection, and without the completed ones when they are not asked
    for: no task is lost, invented or repeated by the sort. *)
Theorem listTasks_shows_what_is_asked sortBy (showCompleted : bool) ts :
  (date_key sortBy → Forall (λ t, is_Some (dayjs (date_of sortBy t))) ts) →
  let rows := tasksToDisplay dayjs Array_sort sortBy showCompleted ts in
  (showCompleted = true → rows ≡ₚ ts)
  ∧ (showCompleted = false →
       rows ≡ₚ filter (λ t, completed t = false) ts
       ∧ Forall (λ t, completed t = false) rows).
Proof.
  intros Hvalid rows. subst rows. unfold tasksToDisplay. split.
  - intros ->. apply Array_sort_stable, compareFn_swo. done.
  - intros ->.
    assert (Array_sort (compareFn dayjs sortBy) (filter (λ t, completed t = false) ts)
              ≡ₚ filter (λ t, completed t = false) ts) as Hperm.
    { apply Array_sort_stable, compareFn_swo. intros Hkey.
      apply Forall_forall. intros t Ht. apply list_elem_of_filter in Ht as [_ Ht].
      by apply (proj1 (Forall_forall _ _) (Hvalid Hkey)). }
    split; [done|]. rewrite Hperm.
    apply Forall_forall. intros t Ht. by apply list_elem_of_filter in Ht as [? _].
Qed.

End Listing.

(** * The further properties on the sample tasks *)

Lemma markComplete_only_sets_flag_witness :
  [milk; taxes] !! 1%nat = Some taxes
  ∧ ∃ ts' t', mem_tasks (snd (markComplete (id milk) true (in_memory [milk; taxes] None)))
                = Some ts'
      ∧ ts' !! 1%nat = Some t' ∧ id t' = id taxes ∧ t' = taxes.
Proof.
  split; [reflexivity|].
  destruct (markComplete_only_sets_flag (id milk) true [milk; taxes] None)
    as (ts' & Hmem & _ & Hframe).
  destruct (Hframe 1%nat taxes eq_refl) as (t' & Ht' & Hid & _ & _ & _ & _ & _ & _ & Hsame).
  exists ts', t'. split; [exact Hmem|]. split; [exact Ht'|]. split; [exact Hid|].
  apply Hsame. vm_compute. intros Heq. discriminate Heq.
Defined.

Lemma uncaught_only_from_unknown_update_witness :
  fst (dispatch sample_dayjs insertion_sort
         (act_update "17" (mkAnswers "x" "" "2024-01-01" 1)) true (in_memory [milk] None)) =
    Uncaught TypeError
  ∧ (TypeError = TypeError ∧ [milk] ≠ []
     ∧ snd (dispatch sample_dayjs insertion_sort
              (act_update "17" (mkAnswers "x" "" "2024-01-01" 1)) true
              (in_memory [milk] None)) = in_memory [milk] None
     ∧ ∃ taskId answers,
         act_update "17" (mkAnswers "x" "" "2024-01-01" 1) = act_update taskId answers
         ∧ find_by_id taskId [milk] = None).
Proof.
  split; [reflexivity|].
  apply (uncaught_only_from_unknown_update sample_dayjs insertion_sort). reflexivity.
Defined.

Lemma invalid_fields_rejected_witness :
  let answers := mkAnswers "Dust" "" "2024-02-30x" 2 in
  sample_dayjs (a_dueDate answers) = None
  ∧ (∃ issues, issues ≠ []
       ∧ addTask sample_dayjs 1700000000009 "2024-01-01T09:00:00+00:00" answers true
           (in_memory [milk] None) =
         (Failed "Failed to add task: " (ZodError issues), in_memory [milk] None))
  ∧ ∃ issues, issues ≠ []
      ∧ updateTask sample_dayjs (id milk) answers true (in_memory [milk] None) =
        (Failed "Failed to update task: " (ZodError issues), in_memory [milk] None).
Proof.
  cbn zeta.
  assert (sample_dayjs "2024-02-30x" = None) as Hdate by reflexivity.
  split; [exact Hdate|].
  destruct (invalid_fields_rejected sample_dayjs 1700000000009
              "2024-01-01T09:00:00+00:00" (mkAnswers "Dust" "" "2024-02-30x" 2)
              (id milk) true [milk] None (or_intror (or_introl Hdate)))
    as [Hadd Hupdate].
  split; [exact Hadd|]. apply (Hupdate milk). reflexivity.
Defined.

Lemma prompted_add_passes_schema_witness :
  let answers := mkAnswers "Dust" "" "2024-03-15" 3 in
  add_prompt_accepts sample_dayjs answers = true
  ∧ addTask sample_dayjs 1700000000009 "2024-01-01T09:00:00+00:00" answers false
      (in_memory [milk] None) =
    (Failed "Failed to add task: " WriteError,
     in_memory ([milk] ++ [newTask 1700000000009 "2024-01-01T09:00:00+00:00" answers]) None).
Proof.
  cbn zeta. split; [reflexivity|].
  apply (prompted_add_passes_schema sample_dayjs 1700000000009
           "2024-01-01T09:00:00+00:00" (mkAnswers "Dust" "" "2024-03-15" 3) false).
  reflexivity.
Defined.

Lemma updateTask_then_find_witness :
  let answers := mkAnswers "Buy oat milk" "2 l" "2024-03-15" 1 in
  updateTask sample_dayjs (id milk) answers true (in_memory [taxes; milk] None) =
    (Succeeded "Task updated successfully!", store_of [taxes; merge_answers milk answers])
  ∧ ∃ old ts', find_by_id (id milk) [taxes; milk] = Some old
      ∧ mem_tasks (store_of [taxes; merge_answers milk answers]) = Some ts'
      ∧ find_by_id (id milk) ts' = Some (merge_answers old answers)
      ∧ ∀ other, other ≠ id milk → find_by_id other ts' = find_by_id other [taxes; milk].
Proof.
  cbn zeta. split; [reflexivity|].
  apply (updateTask_then_find sample_dayjs (id milk)
           (mkAnswers "Buy oat milk" "2 l" "2024-03-15" 1) true [taxes; milk] None
           "Task updated successfully!").
  reflexivity.
Defined.

Lemma complete_then_clear_removes_witness :
  (NoDup (id <$> [milk; taxes])
   ∧ markComplete (id milk) true (in_memory [milk; taxes] None) =
       (Succeeded "Task marked as completed!", store_of [ticked milk; taxes]))
  ∧ ∃ ts2, mem_tasks (snd (clearCompleted true true (store_of [ticked milk; taxes])))
             = Some ts2
      ∧ find_by_id (id milk) ts2 = None
      ∧ ∀ t, t ∈ ts2 ↔ t ∈ [milk; taxes] ∧ completed t = false ∧ id t ≠ id milk.
Proof.
  assert (NoDup (id <$> [milk; taxes])) as Hnodup by compute_done.
  split; [split; [exact Hnodup|reflexivity]|].
  apply (complete_then_clear_removes (id milk) true true [milk; taxes] None
           "Task marked as completed!" _ Hnodup).
  reflexivity.
Defined.

Lemma add_then_remove_restores_witness :
  let answers := mkAnswers "Dust" "" "2024-03-15" 3 in
  ((pretty 1700000000009 ∉ id <$> [milk; taxes])
   ∧ taskSchema_issues sample_dayjs
       (newTask 1700000000009 "2024-01-01T09:00:00+00:00" answers) = [])
  ∧ mainMenu sample_dayjs insertion_sort
      [(act_add 1700000000009 "2024-01-01T09:00:00+00:00" answers, true);
       (act_remove (pretty 1700000000009) true, true)]
      (store_of [milk; taxes]) =
    ([Succeeded "Task added successfully!"; Succeeded "Task removed successfully!"],
     store_of [milk; taxes]).
Proof.
  cbn zeta.
  assert (pretty 1700000000009 ∉ id <$> [milk; taxes]) as Hfresh by compute_done.
  split; [split; [exact Hfresh|reflexivity]|].
  apply (add_then_remove_restores sample_dayjs insertion_sort); [exact Hfresh|reflexivity].
Defined.

Lemma only_add_can_duplicate_ids_witness :
  NoDup (id <$> [milk; taxes; laundry])
  ∧ ∃ ts', mem_tasks (snd (dispatch sample_dayjs insertion_sort (act_clear true) true
                             (in_memory [milk; taxes; laundry] None))) = Some ts'
      ∧ NoDup (id <$> ts').
Proof.
  assert (NoDup (id <$> [milk; taxes; laundry])) as Hnodup by compute_done.
  split; [exact Hnodup|].
  apply (only_add_can_duplicate_ids sample_dayjs insertion_sort (act_clear true) true
           [milk; taxes; laundry] None); [|exact Hnodup].
  intros now stamp answers Heq. discriminate Heq.
Defined.

Lemma session_keeps_valid_witness :
  let script :=
    [ (act_add 1700000000009 "2024-01-01T09:00:00+00:00"
         (mkAnswers "" "" "2024-03-15" 3), true);
      (act_update (id milk) (mkAnswers "Buy oat milk" "" "2024-03-15" 1), false);
      (act_complete (id taxes), true) ] in
  all_valid sample_dayjs [milk; taxes]
  ∧ ∃ ts', mem_tasks (snd (mainMenu sample_dayjs insertion_sort script
                             (in_memory [milk; taxes] None))) = Some ts'
      ∧ all_valid sample_dayjs ts'.
Proof.
  cbn zeta.
  assert (all_valid sample_dayjs [milk; taxes]) as Hvalid
    by (repeat constructor).
  split; [exact Hvalid|].
  apply (session_keeps_valid sample_dayjs insertion_sort _ [milk; taxes] None Hvalid).
Defined.

Lemma session_in_sync_witness :
  let script :=
    [ (act_complete (id milk), true); (act_clear true, true);
      (act_remove (id taxes) false, true) ] in
  Forall (λ turn : Action * bool, snd turn = true) script
  ∧ ∃ ts', snd (mainMenu sample_dayjs insertion_sort script (store_of [milk; taxes])) =
           store_of ts'.
Proof.
  cbn zeta.
  assert (Forall (λ turn : Action * bool, snd turn = true)
            [ (act_complete (id milk), true); (act_clear true, true);
              (act_remove (id taxes) false, true) ]) as Hok
    by (repeat constructor).
  split; [exact Hok|].
  apply (session_in_sync sample_dayjs insertion_sort _ [milk; taxes] Hok).
Defined.

Lemma succeeded_survives_restart_witness :
  dispatch sample_dayjs insertion_sort (act_remove (id milk) true) true
    (in_memory [milk; taxes] None) =
    (Succeeded "Task removed successfully!", store_of [taxes])
  ∧ snd (initializeDB true (mkLow None (file (store_of [taxes])))) = store_of [taxes]
  ∧ mem_tasks (store_of [taxes]) = Some (mutated (act_remove (id milk) true) [milk; taxes]).
Proof.
  split; [reflexivity|].
  apply (succeeded_survives_restart sample_dayjs insertion_sort
           (act_remove (id milk) true) true [milk; taxes] None
           "Task removed successfully!").
  reflexivity.
Defined.

Lemma prompted_session_shows_no_TypeError_witness :
  let script :=
    [ (act_add 1700000000009 "2024-01-01T09:00:00+00:00"
         (mkAnswers "Dust" "" "2024-03-15" 3), true);
      (act_complete "1700000000009", false);
      (act_update "1700000000009" (mkAnswers "" "" "2024-03-15" 3), true);
      (act_list by_createdAt true, true) ] in
  script_answered sample_dayjs insertion_sort script (in_memory [] None)
  ∧ length (fst (mainMenu sample_dayjs insertion_sort script (in_memory [] None))) =
      length script
  ∧ Forall prompted_outcome
      (fst (mainMenu sample_dayjs insertion_sort script (in_memory [] None))).
Proof.
  cbn zeta.
  assert (script_answered sample_dayjs insertion_sort
            [ (act_add 1700000000009 "2024-01-01T09:00:00+00:00"
                 (mkAnswers "Dust" "" "2024-03-15" 3), true);
              (act_complete "1700000000009", false);
              (act_update "1700000000009" (mkAnswers "" "" "2024-03-15" 3), true);
              (act_list by_createdAt true, true) ]
            (in_memory [] None)) as Hscript.
  { cbn [script_answered].
    split; [intros ts _; vm_compute; reflexivity|].
    split; [intros ts Hts; vm_compute in Hts; injection Hts as <-; right; compute_done|].
    split; [intros ts Hts; vm_compute in Hts; injection Hts as <-; right;
            split; [compute_done|reflexivity]|].
    split; [intros ts _; exact I|exact I]. }
  split; [exact Hscript|].
  apply (prompted_session_shows_no_TypeError sample_dayjs insertion_sort _ [] None Hscript).
Defined.

Lemma listTasks_by_priority_stable_witness :
  tasksToDisplay sample_dayjs insertion_sort by_priority true
    [laundry; milk; taxes; ticked milk] = [taxes; milk; ticked milk; laundry]
  ∧ filter (λ t, Qeq_bool (priority t) 2 = true)
      (tasksToDisplay sample_dayjs insertion_sort by_priority true
         [laundry; milk; taxes; ticked milk]) =
    filter (λ t, Qeq_bool (priority t) 2 = true) [laundry; milk; taxes; ticked milk].
Proof.
  split; [reflexivity|].
  apply (listTasks_by_priority_stable sample_dayjs insertion_sort
           (@insertion_sort_stable_sort_of Task) true
           [laundry; milk; taxes; ticked milk]).
Defined.

Lemma listTasks_by_completed_partitions_witness :
  tasksToDisplay sample_dayjs insertion_sort by_completed true
    [laundry; milk; ticked taxes; taxes] = [milk; taxes; laundry; ticked taxes]
  ∧ tasksToDisplay sample_dayjs insertion_sort by_completed true
      [laundry; milk; ticked taxes; taxes] =
    filter (λ t, completed t = false) [laundry; milk; ticked taxes; taxes]
      ++ filter (λ t, completed t = true) [laundry; milk; ticked taxes; taxes].
Proof.
  split; [reflexivity|].
  apply (listTasks_by_completed_partitions sample_dayjs insertion_sort
           (@insertion_sort_stable_sort_of Task) true
           [laundry; milk; ticked taxes; taxes]).
Defined.

Lemma listTasks_shows_what_is_asked_witness :
  (date_key by_dueDate →
   Forall (λ t, is_Some (sample_dayjs (date_of by_dueDate t))) [taxes; laundry; milk])
  ∧ tasksToDisplay sample_dayjs insertion_sort by_dueDate false [taxes; laundry; milk]
      ≡ₚ filter (λ t, completed t = false) [taxes; laundry; milk]
  ∧ Forall (λ t, completed t = false)
      (tasksToDisplay sample_dayjs insertion_sort by_dueDate false [taxes; laundry; milk]).
Proof.
  assert (date_key by_dueDate →
          Forall (λ t, is_Some (sample_dayjs (date_of by_dueDate t)))
            [taxes; laundry; milk]) as Hvalid.
  { intros _. repeat constructor; by eexists. }
  split; [exact Hvalid|].
  apply (listTasks_shows_what_is_asked sample_dayjs insertion_sort
           (@insertion_sort_stable_sort_of Task) by_dueDate false
           [taxes; laundry; milk] Hvalid).
  reflexivity.
Defined.

(** * A document without [tasks] *)

(** X19. On a document that has no [tasks] field no command changes the
    store: [addTask] fails inside its [try], with the schema's issues or
    with the [TypeError] of the push, and every other command throws a
    [TypeError] that leaves it. *)
Theorem commands_without_tasks_field dayjs Array_sort action ok f :
  let db := mkLow (Some (mkData None)) f in
  snd (dispatch dayjs Array_sort action ok db) = db
  ∧ match action with
    | act_add now stamp answers =>
        fst (dispatch dayjs Array_sort action ok db) =
          Failed "Failed to add task: "
            (match taskSchema_issues dayjs (newTask now stamp answers) with
             | [] => TypeError
             | issues => ZodError issues
             end)
    | _ => fst (dispatch dayjs Array_sort action ok db) = Uncaught TypeError
    end.
Proof.
  destruct action as [now stamp answers|sortBy showCompleted|taskId answers
                     |taskId|taskId confirm|confirm]; cbn [dispatch]; try done.
  unfold addTask, try_catch, taskSchema_parse.
  destruct (taskSchema_issues dayjs _); done.
Qed.
